(** * Compressed sparse row matrices of [ex00/sparse_matrix.cc]

    A shallow embedding of the class template [SparseMatrix<T>] and of the
    kernels it offers (element access, [multiply], [diag], the Jacobi, SOR
    and SSOR relaxation steps), followed by the properties of the
    natural-language specification that were checked against it. *)

From Stdlib Require Import ZArith Lia Floats.
From stdpp Require Import base list.

Local Open Scope Z_scope.

(** ** Machine integers *)

(** [unsigned int] is 32 bits wide: arithmetic on it wraps modulo [2^32];
    [int] ranges over [INT_MIN .. INT_MAX]. *)
Definition UINT_MOD : Z := 2 ^ 32.
Definition INT_MAX : Z := 2 ^ 31 - 1.
Definition INT_MIN : Z := - 2 ^ 31.

Definition u32 (z : Z) : Z := z mod UINT_MOD.

(** Conversion of an [unsigned int] to [int] (modular, as every two's
    complement target does it). *)
Definition to_int (z : Z) : Z :=
  if decide (z <= INT_MAX) then z else z - UINT_MOD.

(** ** Outcomes of a call *)

Inductive failure : Set :=
  | AssertFail      (* an [assert] did not hold *)
  | Abort           (* an explicit call of [abort ()] *)
  | Undefined.      (* out-of-bounds access, [int] overflow, division by zero *)

Inductive outcome (A : Type) : Type :=
  | Ret (a : A)
  | Fail (e : failure).
Arguments Ret {A} a.
Arguments Fail {A} e.

Global Instance outcome_ret : MRet outcome := fun A a => Ret a.
Global Instance outcome_bind : MBind outcome := fun A B f c =>
  match c with
  | Ret a => f a
  | Fail e => Fail e
  end.

Definition assert (b : bool) : outcome unit :=
  if b then Ret tt else Fail AssertFail.

(** ** Arrays ([std::vector]) indexed by machine integers *)

(** [v[i]] as an rvalue: reading outside the vector is undefined. *)
Definition load {A : Type} (v : list A) (i : Z) : outcome A :=
  if decide (0 <= i) then
    match v !! Z.to_nat i with
    | Some a => Ret a
    | None => Fail Undefined
    end
  else Fail Undefined.

(** [v[i] = a]. *)
Definition store {A : Type} (v : list A) (i : Z) (a : A) : outcome (list A) :=
  if decide (0 <= i < Z.of_nat (length v)) then Ret (<[Z.to_nat i := a]> v)
  else Fail Undefined.

(** Total reading, used on the specification side only. *)
Definition sel {A : Type} (d : A) (v : list A) (i : Z) : A :=
  default d (v !! Z.to_nat i).

(** The index values taken by [for (unsigned int k = lo; k < hi; ++k)]:
    the bound is not changed by any loop body of this file, and [k < hi]
    keeps [++k] from wrapping. *)
Definition range (lo hi : Z) : list Z := seqZ lo (hi - lo).

(** A loop whose body updates a state [S] and may fail. *)
Fixpoint for_each {S : Type} (ks : list Z) (body : Z -> S -> outcome S) (s : S)
  : outcome S :=
  match ks with
  | [] => Ret s
  | k :: ks' => s' ← body k s; for_each ks' body s'
  end.

(** ** Element types *)

(** The template parameter [T] with the operations the class uses on it.
    [tdiv_ok d] tells whether dividing by [d] is defined ([int] division
    by zero is not); [tsqrt a] is [std::sqrt (a)] converted back to [T]. *)
Class Scalar (T : Type) : Type := {
  tzero : T;                    (* T (0) *)
  tneg_one : T;                 (* T (-1) *)
  tadd : T -> T -> T;
  tsub : T -> T -> T;
  tmul : T -> T -> T;
  tdiv : T -> T -> T;
  tdiv_ok : T -> bool;
  tsqrt : T -> T
}.

(** [int]: 32-bit two's complement.  Overflow, which C++ leaves undefined,
    wraps; division truncates towards zero; [std::sqrt] is taken in [double]
    and truncated on the way back to [int] (of a negative argument it is
    undefined in C++ and zero here). *)
Definition int_range (z : Z) : Prop := INT_MIN <= z <= INT_MAX.

Definition wrap_int (z : Z) : Z := to_int (u32 z).

Lemma wrap_int_range z : int_range (wrap_int z).
Proof.
  unfold int_range, wrap_int, to_int, u32, INT_MIN, INT_MAX, UINT_MOD.
  pose proof (Z.mod_pos_bound z (2 ^ 32)).
  case_decide; lia.
Qed.

Definition int32 : Type := dsig int_range.

Definition int32_of (z : Z) : int32 := dexist (wrap_int z) (wrap_int_range z).

Global Instance int_scalar : Scalar int32 := {|
  tzero := int32_of 0;
  tneg_one := int32_of (-1);
  tadd a b := int32_of (`a + `b);
  tsub a b := int32_of (`a - `b);
  tmul a b := int32_of (`a * `b);
  tdiv a b := int32_of (Z.quot (`a) (`b));
  tdiv_ok d := negb (`d =? 0);
  tsqrt a := int32_of (Z.sqrt (`a))
|}.

(** [double]: IEEE 754 binary64. *)
Global Instance double_scalar : Scalar float := {|
  tzero := 0%float;
  tneg_one := (-1)%float;
  tadd := PrimFloat.add;
  tsub := PrimFloat.sub;
  tmul := PrimFloat.mul;
  tdiv := PrimFloat.div;
  tdiv_ok _ := true;
  tsqrt := PrimFloat.sqrt
|}.

(** ** The matrix *)

Inductive State : Set := OPEN | CLOSED.

Global Instance State_eq_dec : EqDecision State.
Proof. solve_decision. Defined.

Record SparseMatrix (T : Type) : Type := {
  nrow : Z;
  row_ptr : list Z;
  col_ind : list Z;
  val : list T;
  state : State
}.
Arguments nrow {T} _.
Arguments row_ptr {T} _.
Arguments col_ind {T} _.
Arguments val {T} _.
Arguments state {T} _.

(** What the process holds besides the matrices: the function-local
    [static unsigned int count] of [set] (one per instantiation of the
    template) and what was written to [std::cout]. *)
Inductive message : Set :=
  | RowEmpty (i : Z)            (* "Warning: Row i is empty" *)
  | NoElement (i j : Z).        (* "Element i, j does not exist" *)

Record process : Set := {
  count : Z;
  cout : list message
}.

Definition process_start : process := {| count := 0; cout := [] |}.

(** Non-const member functions run on the process and the matrix. *)
Definition M (S A : Type) : Type := S -> outcome A * S.

Global Instance M_ret {S} : MRet (M S) := fun A a s => (Ret a, s).
Global Instance M_bind {S} : MBind (M S) := fun A B f c s =>
  match c s with
  | (Ret a, s') => f a s'
  | (Fail e, s') => (Fail e, s')
  end.

Definition lift {S A} (c : outcome A) : M S A := fun s => (c, s).
Definition gets {S A} (f : S -> A) : M S A := fun s => (Ret (f s), s).
Definition modify {S} (f : S -> S) : M S unit := fun s => (Ret tt, f s).

Fixpoint for_eachM {S : Type} (ks : list Z) (body : Z -> M S unit) : M S unit :=
  match ks with
  | [] => mret tt
  | k :: ks' => _ ← body k; for_eachM ks' body
  end.

Section SparseMatrix.
Context {T : Type} `{Scalar T}.

Local Abbreviation matrix := (SparseMatrix T).

(** *** Dense vectors *)

(** Modelled from the spec: [Vector.h] and [math_functions.h] are not among
    the sources.  A [Vector<T>] is a sequence of fixed length, created with
    zero-initialised elements; element access is checked against the length;
    [+=] adds element by element; [dot] is the sum of the element-wise
    products. *)
Definition Vector : Type := list T.

Definition Vector_new (n : Z) : Vector := replicate (Z.to_nat n) tzero.

Definition size (v : Vector) : Z := Z.of_nat (length v).

Definition vget (v : Vector) (i : Z) : outcome T := load v i.

Definition vset (v : Vector) (i : Z) (a : T) : outcome Vector := store v i a.

Definition vadd_assign (r rhs : Vector) : outcome Vector :=
  _ ← assert (bool_decide (size r = size rhs));
  Ret (zip_with tadd r rhs).

Definition dot (a b : Vector) : outcome T :=
  _ ← assert (bool_decide (size a = size b));
  Ret (foldl (fun acc p => tadd acc (tmul p.1 p.2)) tzero (zip a b)).

(** *** Constructors *)

(** [SparseMatrix (row_ptr, col_ind, val)].  The member [state] is not
    written by this constructor; [st] stands for what it holds. *)
Definition SparseMatrix_csr (rp ci : list Z) (v : list T) (st : State)
  : outcome matrix :=
  let n := u32 (Z.of_nat (length rp) - 1) in
  _ ← assert (bool_decide (2 <= Z.of_nat (length rp)));
  _ ← assert (bool_decide (0 < Z.of_nat (length ci)));
  _ ← assert (bool_decide (length ci = length v));
  last ← load rp n;
  _ ← assert (bool_decide (last = Z.of_nat (length v)));
  _ ← assert (forallb (fun c => bool_decide (0 <= c < n)) ci);
  Ret {| nrow := n; row_ptr := rp; col_ind := ci; val := v; state := st |}.

(** [SparseMatrix (unsigned int nrow)] *)
Definition SparseMatrix_new (n : Z) : outcome matrix :=
  _ ← assert (bool_decide (0 < n));
  Ret {| nrow := n;
         row_ptr := replicate (Z.to_nat (u32 (n + 1))) 0;
         col_ind := [];
         val := [];
         state := OPEN |}.

(** *** Building the pattern *)

Definition St : Type := process * matrix.

Definition with_row_ptr (rp : list Z) (s : St) : St :=
  (s.1, {| nrow := nrow s.2; row_ptr := rp; col_ind := col_ind s.2;
           val := val s.2; state := state s.2 |}).

Definition push_entry (j : Z) (value : T) (s : St) : St :=
  (s.1, {| nrow := nrow s.2; row_ptr := row_ptr s.2;
           col_ind := col_ind s.2 ++ [j];
           val := val s.2 ++ [value]; state := state s.2 |}).

Definition with_state (st : State) (s : St) : St :=
  (s.1, {| nrow := nrow s.2; row_ptr := row_ptr s.2; col_ind := col_ind s.2;
           val := val s.2; state := st |}).

Definition incr_count (s : St) : St :=
  ({| count := u32 (count s.1 + 1); cout := cout s.1 |}, s.2).

Definition print (msg : message) (s : St) : St :=
  ({| count := count s.1; cout := cout s.1 ++ [msg] |}, s.2).

(** [void set (const unsigned int i, const unsigned int j, const T value)] *)
Definition set (i j : Z) (value : T) : M St unit :=
  st ← gets (fun s => state s.2);
  _ ← lift (assert (bool_decide (st = OPEN)));
  n ← gets (fun s => nrow s.2);
  _ ← lift (assert (bool_decide (0 <= i < n)));
  _ ← lift (assert (bool_decide (0 <= j < n)));
  rp ← gets (fun s => row_ptr s.2);
  r ← lift (load rp (u32 (i + 1)));
  _ ← (if decide (r = 0) then
         c ← gets (fun s => count s.1);
         rp' ← lift (store rp (u32 (i + 1)) c);
         modify (with_row_ptr rp')
       else mret tt);
  _ ← modify incr_count;
  rp ← gets (fun s => row_ptr s.2);
  r ← lift (load rp (u32 (i + 1)));
  rp' ← lift (store rp (u32 (i + 1)) (u32 (r + 1)));
  _ ← modify (with_row_ptr rp');
  modify (push_entry j value).

(** The body of the loop of [close]. *)
Definition close_row (i : Z) : M St unit :=
  rp ← gets (fun s => row_ptr s.2);
  r ← lift (load rp i);
  if decide (r = 0) then
    p ← lift (load rp (u32 (i - 1)));
    rp' ← lift (store rp i p);
    _ ← modify (with_row_ptr rp');
    modify (print (RowEmpty i))
  else mret tt.

(** [void close ()] *)
Definition close : M St unit :=
  n ← gets (fun s => nrow s.2);
  _ ← for_eachM (range 1 (u32 (n + 1))) close_row;
  modify (with_state CLOSED).

(** [construct (nrow)] followed by a sequence of [set] calls. *)
Definition entry : Type := Z * Z * T.

Definition set_all (es : list entry) : M St unit :=
  foldr (fun e k => _ ← set e.1.1 e.1.2 e.2; k) (mret tt) es.

Definition build (p : process) (n : Z) (es : list entry) : outcome unit * St :=
  match SparseMatrix_new n with
  | Ret A => set_all es (p, A)
  | Fail e => (Fail e, (p, {| nrow := n; row_ptr := []; col_ind := [];
                               val := []; state := OPEN |}))
  end.

(** *** Element access *)

(** The scan shared by both [operator()]:
    [for (d = row_beg; d < row_end; ++d) if (col_ind[d] == j) return val[d];]
    yields the position of the first match. *)
Fixpoint scan (A : matrix) (j : Z) (ds : list Z) : outcome (option Z) :=
  match ds with
  | [] => Ret None
  | d :: ds' =>
      c ← load (col_ind A) d;
      if decide (c = j) then Ret (Some d) else scan A j ds'
  end.

(** [T operator() (unsigned int i, unsigned int j) const] *)
Definition get (A : matrix) (i j : Z) : outcome T :=
  row_beg ← load (row_ptr A) i;
  row_end ← load (row_ptr A) (u32 (i + 1));
  r ← scan A j (range row_beg row_end);
  match r with
  | Some d => load (val A) d
  | None => Ret tzero
  end.

(** [T& operator() (unsigned int i, unsigned int j)]: the reference that is
    returned is given by the position in [val] it designates. *)
Definition get_mut (i j : Z) : M St Z :=
  A ← gets (fun s => s.2);
  row_beg ← lift (load (row_ptr A) i);
  row_end ← lift (load (row_ptr A) (u32 (i + 1)));
  r ← lift (scan A j (range row_beg row_end));
  match r with
  | Some d => _ ← lift (load (val A) d); mret d
  | None => _ ← modify (print (NoElement i j)); lift (Fail Abort)
  end.

(** Assignment through a reference obtained from [get_mut]. *)
Definition assign (d : Z) (a : T) (A : matrix) : outcome matrix :=
  v ← store (val A) d a;
  Ret {| nrow := nrow A; row_ptr := row_ptr A; col_ind := col_ind A;
         val := v; state := state A |}.

(** [T diag (const unsigned int i) const] *)
Definition diag (A : matrix) (i : Z) : outcome T :=
  row_beg ← load (row_ptr A) i;
  load (val A) row_beg.

(** *** Kernels *)

(** The vectors that one call receives by reference are distinct objects.
    A vector received by const reference is only read, so that it is the
    same after the call; the result of a kernel consists of the final value
    of the vector it may write and of the value it returns. *)

(** [void multiply (const Vector<T>& x, Vector<T>& y, const T scalar) const] *)
Definition multiply (A : matrix) (x y : Vector) (scalar : T) : outcome Vector :=
  _ ← assert (bool_decide (size x = nrow A));
  _ ← assert (bool_decide (size x = size y));
  for_each (range 0 (nrow A)) (fun i y =>
    y ← vset y i tzero;
    row_beg ← load (row_ptr A) i;
    row_end ← load (row_ptr A) (u32 (i + 1));
    y ← for_each (range row_beg row_end) (fun j y =>
          a ← load (val A) j;
          c ← load (col_ind A) j;
          xc ← vget x c;
          yi ← vget y i;
          vset y i (tadd yi (tmul a xc))) y;
    yi ← vget y i;
    vset y i (tmul yi scalar)) y.

(** [a / d] *)
Definition divide (a d : T) : outcome T :=
  if tdiv_ok d then Ret (tdiv a d) else Fail Undefined.

(** [T Jacobi_step (Vector<T>& x, const Vector<T>& rhs) const]: the final
    [x] and the value returned. *)
Definition Jacobi_step (A : matrix) (x rhs : Vector) : outcome (Vector * T) :=
  r ← multiply A x (Vector_new (nrow A)) tneg_one;
  r ← vadd_assign r rhs;
  x ← for_each (range 0 (nrow A)) (fun i x =>
        ri ← vget r i;
        d ← diag A i;
        q ← divide ri d;
        xi ← vget x i;
        vset x i (tadd xi q)) x;
  n ← dot r r;
  Ret (x, tsqrt n).

(** [i + 1] for an [unsigned int i] and for an [int i]. *)
Definition usucc (i : Z) : outcome Z := Ret (u32 (i + 1)).

Definition isucc (i : Z) : outcome Z :=
  if decide (i + 1 <= INT_MAX) then Ret (i + 1) else Fail Undefined.

(** The body that the loops of [SOR_step] and [SSOR_step] have in common:
    [T r = rhs(i); ... r -= val[j] * x(col_ind[j]); x(i) += omg * r / diag(i);]
    yields the new [x] and [r]. *)
Definition relax (A : matrix) (rhs : Vector) (omg : T) (succ : Z -> outcome Z)
    (i : Z) (x : Vector) : outcome (Vector * T) :=
  r ← vget rhs i;
  row_beg ← load (row_ptr A) i;
  i1 ← succ i;
  row_end ← load (row_ptr A) i1;
  r ← for_each (range row_beg row_end) (fun j r =>
        a ← load (val A) j;
        c ← load (col_ind A) j;
        xc ← vget x c;
        Ret (tsub r (tmul a xc))) r;
  d ← diag A i;
  q ← divide (tmul omg r) d;
  xi ← vget x i;
  x ← vset x i (tadd xi q);
  Ret (x, r).

(** A sweep that accumulates [res += r * r]. *)
Definition sweep (A : matrix) (rhs : Vector) (omg : T) (succ : Z -> outcome Z)
    (rows : list Z) (x : Vector) : outcome (Vector * T) :=
  for_each rows (fun i s =>
    xr ← relax A rhs omg succ i s.1;
    Ret (xr.1, tadd s.2 (tmul xr.2 xr.2))) (x, tzero).

(** [T SOR_step (Vector<T>& x, const Vector<T>& rhs, const T omg) const] *)
Definition SOR_step (A : matrix) (x rhs : Vector) (omg : T)
  : outcome (Vector * T) :=
  s ← sweep A rhs omg usucc (range 0 (nrow A)) x;
  Ret (s.1, tsqrt s.2).

(** The rows visited by [for (int i = nrow - 1; i >= 0; --i)]. *)
Definition backward_rows (n : Z) : list Z :=
  reverse (range 0 (to_int (u32 (n - 1)) + 1)).

(** [T SSOR_step (Vector<T>& x, const Vector<T>& rhs, const T omg) const] *)
Definition SSOR_step (A : matrix) (x rhs : Vector) (omg : T)
  : outcome (Vector * T) :=
  x ← for_each (range 0 (nrow A)) (fun i x =>
        xr ← relax A rhs omg usucc i x; Ret xr.1) x;
  s ← sweep A rhs omg isucc (backward_rows (nrow A)) x;
  Ret (s.1, tsqrt s.2).

(** ** The notions of the specification *)

Fixpoint nondecreasing (l : list Z) : bool :=
  match l with
  | a :: l' =>
      match l' with
      | b :: _ => bool_decide (a <= b) && nondecreasing l'
      | [] => true
      end
  | [] => true
  end.

(** The invariants of the data model: [row_ptr] has [nrow + 1] offsets,
    starts at zero, does not decrease and ends at the number of stored
    entries; every column index is below [nrow]. *)
Definition valid_csr (A : matrix) : bool :=
  bool_decide (0 < nrow A < UINT_MOD)
  && bool_decide (Z.of_nat (length (row_ptr A)) = nrow A + 1)
  && bool_decide (sel 0 (row_ptr A) 0 = 0)
  && nondecreasing (row_ptr A)
  && bool_decide (sel 0 (row_ptr A) (nrow A) = Z.of_nat (length (val A)))
  && bool_decide (length (col_ind A) = length (val A))
  && forallb (fun c => bool_decide (0 <= c < nrow A)) (col_ind A).

Record csr_inv (A : matrix) : Prop := {
  inv_nrow : 0 < nrow A < UINT_MOD;
  inv_len : Z.of_nat (length (row_ptr A)) = nrow A + 1;
  inv_first : sel 0 (row_ptr A) 0 = 0;
  inv_mono : nondecreasing (row_ptr A) = true;
  inv_last : sel 0 (row_ptr A) (nrow A) = Z.of_nat (length (val A));
  inv_cols_len : length (col_ind A) = length (val A);
  inv_cols : Forall (fun c => 0 <= c < nrow A) (col_ind A)
}.

(** The stored entries of row [i], column index and value, in storage
    order within [row_ptr[i] .. row_ptr[i+1]]. *)
Definition stored (A : matrix) (d : Z) : Z * T :=
  (sel 0 (col_ind A) d, sel tzero (val A) d).

Definition row_entries (A : matrix) (i : Z) : list (Z * T) :=
  stored A <$> range (sel 0 (row_ptr A) i) (sel 0 (row_ptr A) (i + 1)).

(** The positions among [ds] whose column index is [j]. *)
Definition matching (A : matrix) (j : Z) (ds : list Z) : list Z :=
  filter (fun d => sel 0 (col_ind A) d = j) ds.

(** The value of the first entry with column [j]. *)
Fixpoint first_match (j : Z) (es : list (Z * T)) : option T :=
  match es with
  | [] => None
  | e :: es' => if decide (e.1 = j) then Some e.2 else first_match j es'
  end.

(** The sum over the stored entries of row [i] of [val * x[col]]. *)
Definition row_dot (A : matrix) (x : Vector) (i : Z) : T :=
  foldl (fun acc e => tadd acc (tmul e.2 (sel tzero x e.1))) tzero
        (row_entries A i).

(** The value of the first stored entry of row [i]. *)
Definition first_value (A : matrix) (i : Z) : T :=
  sel tzero (val A) (sel 0 (row_ptr A) i).

(** [diag (i)] is defined and may be divided by, for every row. *)
Definition diag_nonzero (A : matrix) : bool :=
  forallb (fun i => match diag A i with
                    | Ret d => tdiv_ok d
                    | Fail _ => false
                    end) (range 0 (nrow A)).

(** [rhs[i]] minus the sum of row [i] against [x]. *)
Definition residual (A : matrix) (rhs x : Vector) (i : Z) : T :=
  tsub (sel tzero rhs i) (row_dot A x i).

(** The same with the operations in the order the loops apply them:
    the products are taken off [rhs[i]] one after the other. *)
Definition residual_seq (A : matrix) (rhs x : Vector) (i : Z) : T :=
  foldl (fun r e => tsub r (tmul e.2 (sel tzero x e.1))) (sel tzero rhs i)
        (row_entries A i).

(** [-1] times the sum, plus [rhs[i]]: the residual as [Jacobi_step]
    forms it. *)
Definition residual_neg (A : matrix) (rhs x : Vector) (i : Z) : T :=
  tadd (tmul (row_dot A x i) tneg_one) (sel tzero rhs i).

(** One row of a relaxation sweep on the pair of [x] and [res]. *)
Definition relax_row (resid : Vector -> Z -> T) (A : matrix) (omg : T)
    (s : Vector * T) (i : Z) : Vector * T :=
  let r := resid s.1 i in
  let xi := tadd (sel tzero s.1 i) (tdiv (tmul omg r) (first_value A i)) in
  (<[Z.to_nat i := xi]> s.1, tadd s.2 (tmul r r)).

Definition sweep_rows (resid : Vector -> Z -> T) (A : matrix) (omg : T)
    (rows : list Z) (x : Vector) : Vector * T :=
  foldl (relax_row resid A omg) (x, tzero) rows.

(** The sum of the squares of the components. *)
Definition sum_squares (r : Vector) : T :=
  foldl (fun acc a => tadd acc (tmul a a)) tzero r.

(** One Jacobi step for a given residual: every component moves by its
    residual over the first value of its row; the norm is that of the
    residual. *)
Definition jacobi_update (resid : Vector -> Z -> T) (A : matrix) (x : Vector)
  : Vector * T :=
  let r := resid x <$> range 0 (nrow A) in
  ((fun i => tadd (sel tzero x i) (tdiv (sel tzero r i) (first_value A i)))
     <$> range 0 (nrow A),
   tsqrt (sum_squares r)).

(** [y = scalar * (A x)], component by component. *)
Definition scaled_product (A : matrix) (x : Vector) (scalar : T) : Vector :=
  (fun i => tmul (row_dot A x i) scalar) <$> range 0 (nrow A).

(** The laws of a commutative ring that relate the order of operations in
    the code to the formulas of the specification.  They hold for [int];
    they do not hold for rounded floating-point arithmetic. *)
Record ring_laws : Prop := {
  mul_comm : forall a b : T, tmul a b = tmul b a;
  sub_zero : forall a : T, tsub a tzero = a;
  sub_sub : forall a b c : T, tsub (tsub a b) c = tsub a (tadd b c);
  neg_add : forall a b : T, tadd (tmul a tneg_one) b = tsub b a
}.

(** *** The incremental protocol *)

(** The calls [set (i, j, value)] of [es] are in range for [n] rows and
    ascend by row. *)
Definition protocol (n : Z) (es : list entry) : bool :=
  forallb (fun e : entry => bool_decide (0 <= e.1.1 < n)
                            && bool_decide (0 <= e.1.2 < n)) es
  && nondecreasing ((fun e : entry => e.1.1) <$> es).

(** How many entries were inserted into row [i], and into the rows up to
    and including [i]. *)
Definition inserted_in (i : Z) (es : list entry) : Z :=
  Z.of_nat (length (filter (fun e : entry => e.1.1 = i) es)).

Definition inserted_through (i : Z) (es : list entry) : Z :=
  Z.of_nat (length (filter (fun e : entry => e.1.1 <= i) es)).

Definition empty_rows (n : Z) (es : list entry) : list Z :=
  filter (fun i => inserted_in i es = 0) (range 0 n).

(** What [row_ptr[k+1]] holds after the calls [es] when the counter of
    [set] stood at [c] before them. *)
Definition offset (c k : Z) (es : list entry) : Z :=
  if decide (inserted_in k es = 0) then 0 else u32 (c + inserted_through k es).

(** The state reached by [construct (n)] and the calls [es], started with
    the counter at [c] and the output [out]. *)
Record built (c n : Z) (es : list entry) (out : list message) (s : St)
  : Prop := {
  b_count : count s.1 = u32 (c + Z.of_nat (length es));
  b_cout : cout s.1 = out;
  b_nrow : nrow s.2 = n;
  b_state : state s.2 = OPEN;
  b_cols : col_ind s.2 = (fun e : entry => e.1.2) <$> es;
  b_vals : val s.2 = (fun e : entry => e.2) <$> es;
  b_len : Z.of_nat (length (row_ptr s.2)) = n + 1;
  b_first : row_ptr s.2 !! 0%nat = Some 0;
  b_rows : forall k, 0 <= k < n ->
           row_ptr s.2 !! Z.to_nat (k + 1) = Some (offset c k es)
}.

(** What [close] makes of the offsets that follow [prev], and what it
    prints, [i] being the index of the first of them. *)
Fixpoint fill (prev : Z) (l : list Z) : list Z :=
  match l with
  | [] => []
  | a :: l' =>
      let a' := if decide (a = 0) then prev else a in
      a' :: fill a' l'
  end.

Fixpoint warnings (i : Z) (l : list Z) : list message :=
  match l with
  | [] => []
  | a :: l' =>
      (if decide (a = 0) then [RowEmpty i] else []) ++ warnings (i + 1) l'
  end.

Definition closed_state (rp : list Z) (msgs : list message) (st : State)
    (s : St) : St :=
  ({| count := count s.1; cout := cout s.1 ++ msgs |},
   {| nrow := nrow s.2; row_ptr := rp; col_ind := col_ind s.2;
      val := val s.2; state := st |}).

End SparseMatrix.

(** ** Example matrices *)

(** The 3x3 identity pattern, as [set (0,0,1)], [set (1,1,1)], [set (2,2,1)]
    and [close ()] leave it. *)
Definition identity3_entries : list (@entry float) :=
  [(0, 0, 1%float); (1, 1, 1%float); (2, 2, 1%float)].

Definition identity3 : SparseMatrix float := {|
  nrow := 3;
  row_ptr := [0; 1; 2; 3];
  col_ind := [0; 1; 2];
  val := [1%float; 1%float; 1%float];
  state := CLOSED
|}.

(** Three rows of which row 1 gets no entry. *)
Definition gap3_entries : list (@entry float) :=
  [(0, 0, 1%float); (2, 2, 1%float)].

(** A single row with a single entry. *)
Definition one_entry : list (@entry float) := [(0, 0, 5%float)].

(** A 2x2 [int] matrix with rows [2 1] and [1 3], diagonal entries first. *)
Definition sym2 : SparseMatrix int32 := {|
  nrow := 2;
  row_ptr := [0; 2; 4];
  col_ind := [0; 1; 1; 0];
  val := int32_of <$> [2; 1; 3; 1];
  state := CLOSED
|}.

(** A 2x2 matrix whose row 0 stores column 1 twice and its diagonal entry
    second: [(0,1) = 5], [(0,0) = 2], [(0,1) = 7]; row 1 stores [(1,1) = 1]. *)
Definition dup2 : SparseMatrix float := {|
  nrow := 2;
  row_ptr := [0; 3; 4];
  col_ind := [1; 0; 1; 1];
  val := [5%float; 2%float; 7%float; 1%float];
  state := CLOSED
|}.

(** ** Further notions and examples *)

Section Further.
Context {T : Type} `{Scalar T}.

(** The laws of zero under which an exact solution is a fixed point of the
    relaxation steps.  They hold for [int]. *)
Record zero_laws : Prop := {
  add_zero : forall a : T, tadd a tzero = a;
  mul_zero : forall a : T, tmul a tzero = tzero;
  div_zero : forall d : T, tdiv tzero d = tzero
}.

(** What the triple constructor asserts of its arguments, [n] being the
    [nrow] it computes. *)
Definition csr_accepted (rp ci : list Z) (v : list T) : Prop :=
  let n := u32 (Z.of_nat (length rp) - 1) in
  2 <= Z.of_nat (length rp) /\ 0 < Z.of_nat (length ci)
  /\ length ci = length v
  /\ rp !! Z.to_nat n = Some (Z.of_nat (length v))
  /\ Forall (fun c => 0 <= c < n) ci.

(** The entries that the calls [es] insert into row [i], column index and
    value, in call order. *)
Definition inserted_entries (i : Z) (es : list (@entry T)) : list (Z * T) :=
  (fun e : @entry T => (e.1.2, e.2)) <$> filter (fun e : @entry T => e.1.1 = i) es.

End Further.

(** Three rows of which rows 1 and 2 store nothing. *)
Definition tail_empty3 : SparseMatrix float := {|
  nrow := 3;
  row_ptr := [0; 1; 1; 1];
  col_ind := [0];
  val := [4%float];
  state := CLOSED
|}.

(** Three rows of which row 1 stores nothing. *)
Definition gap3 : SparseMatrix float := {|
  nrow := 3;
  row_ptr := [0; 1; 1; 2];
  col_ind := [0; 2];
  val := [4%float; 6%float];
  state := CLOSED
|}.

(** [sym2] with a zero in place of the first entry of row 1. *)
Definition zero_diag2 : SparseMatrix int32 := {|
  nrow := 2;
  row_ptr := [0; 2; 4];
  col_ind := [0; 1; 1; 0];
  val := int32_of <$> [2; 1; 0; 1];
  state := CLOSED
|}.

(** The identity pattern of [n] rows. *)
Definition identity (n : Z) : SparseMatrix float := {|
  nrow := n;
  row_ptr := seqZ 0 (n + 1);
  col_ind := seqZ 0 n;
  val := replicate (Z.to_nat n) 1%float;
  state := CLOSED
|}.

(** Two calls of [set] with the rows in descending order. *)
Definition descending_entries : list (@entry float) :=
  [(1, 1, 3%float); (0, 0, 2%float)].

(** * Properties *)

(** ** Machine integers and arrays *)

Lemma u32_small z : 0 <= z < UINT_MOD -> u32 z = z.
Proof. apply Z.mod_small. Qed.

Lemma u32_range z : 0 <= u32 z < UINT_MOD.
Proof. apply Z.mod_pos_bound. reflexivity. Qed.

Lemma u32_succ z : u32 (u32 z + 1) = u32 (z + 1).
Proof. unfold u32. apply Zplus_mod_idemp_l. Qed.

Lemma load_Ret {A} (d : A) (v : list A) i :
  0 <= i < Z.of_nat (length v) -> load v i = Ret (sel d v i).
Proof.
  intros Hi. unfold load, sel. rewrite decide_True by lia.
  destruct (lookup_lt_is_Some_2 v (Z.to_nat i)) as [a Ha]; [lia|].
  rewrite Ha. reflexivity.
Qed.

Lemma load_Ret_inv {A} (v : list A) i a :
  load v i = Ret a -> 0 <= i < Z.of_nat (length v) /\ v !! Z.to_nat i = Some a.
Proof.
  unfold load. case_decide; [|discriminate].
  destruct (v !! Z.to_nat i) eqn:E; [|discriminate].
  intros [= ->]. apply lookup_lt_Some in E as E'. split; [lia|done].
Qed.

Lemma store_Ret {A} (v : list A) i a :
  0 <= i < Z.of_nat (length v) -> store v i a = Ret (<[Z.to_nat i := a]> v).
Proof. intros Hi. unfold store. rewrite decide_True by done. reflexivity. Qed.

Lemma sel_lookup {A} (d : A) v i a : v !! Z.to_nat i = Some a -> sel d v i = a.
Proof. unfold sel. intros ->. reflexivity. Qed.

Lemma lookup_sel {A} (d : A) v i :
  0 <= i < Z.of_nat (length v) -> v !! Z.to_nat i = Some (sel d v i).
Proof.
  intros Hi. destruct (lookup_lt_is_Some_2 v (Z.to_nat i)) as [a Ha]; [lia|].
  rewrite Ha. f_equal. symmetry. by apply sel_lookup.
Qed.

Lemma sel_insert_eq {A} (d : A) v i a :
  0 <= i < Z.of_nat (length v) -> sel d (<[Z.to_nat i := a]> v) i = a.
Proof.
  intros Hi. apply sel_lookup. apply list_lookup_insert_eq. lia.
Qed.

Lemma elem_of_range lo hi k : k ∈ range lo hi <-> lo <= k < hi.
Proof. unfold range. rewrite elem_of_seqZ. lia. Qed.

Lemma nondecreasing_lookup l (i j : nat) a b :
  nondecreasing l = true -> (i <= j)%nat ->
  l !! i = Some a -> l !! j = Some b -> a <= b.
Proof.
  revert i j a. induction l as [|c l IH]; intros i j a Hnd Hij Hi Hj; [done|].
  destruct j as [|j].
  { assert (i = 0%nat) as -> by lia. simpl in *. simplify_eq. lia. }
  simpl in Hnd. destruct l as [|c' l']; [done|].
  apply andb_true_iff in Hnd as [Hc Hnd]. apply bool_decide_eq_true in Hc.
  destruct i as [|i].
  - simpl in Hi. simplify_eq.
    transitivity c'; [done|].
    apply (IH 0%nat j c'); [done|lia|done|done].
  - apply (IH i j a); [done|lia|done|done].
Qed.

(** ** Loops *)

(** A loop whose body acts as a total step function on the states of an
    invariant is the fold of that function. *)
Lemma for_each_foldl {S} (Inv : S -> Prop) (step : S -> Z -> S) ks body (s : S) :
  (forall k s', k ∈ ks -> Inv s' -> body k s' = Ret (step s' k) /\ Inv (step s' k)) ->
  Inv s ->
  for_each ks body s = Ret (foldl step s ks) /\ Inv (foldl step s ks).
Proof.
  revert s. induction ks as [|k ks IH]; intros s Hbody Hs; [done|].
  simpl. destruct (Hbody k s) as [-> Hs']; [left|done|].
  simpl. apply IH; [|done].
  intros k' s' Hk'. apply Hbody. by right.
Qed.

Lemma for_each_foldl_eq {S} (Inv : S -> Prop) (step : S -> Z -> S) ks body (s : S) :
  (forall k s', k ∈ ks -> Inv s' -> body k s' = Ret (step s' k) /\ Inv (step s' k)) ->
  Inv s ->
  for_each ks body s = Ret (foldl step s ks).
Proof. intros Hbody Hs. by apply (for_each_foldl Inv). Qed.

(** Updating the components [0 .. m-1] in turn, each from its own old
    value, maps the update over them. *)
Lemma foldl_insert_seq {A} (h : Z -> A -> A) (d : A) (v : list A) (m : nat) :
  (m <= length v)%nat ->
  foldl (fun y k => <[Z.to_nat k := h k (sel d y k)]> y) v (seqZ 0 (Z.of_nat m))
  = ((fun k => h k (sel d v k)) <$> seqZ 0 (Z.of_nat m)) ++ drop m v.
Proof.
  induction m as [|m IH]; intros Hm.
  - simpl. by rewrite drop_0.
  - rewrite seqZ_S, foldl_app, fmap_app. simpl. rewrite IH by lia.
    rewrite Z.add_0_l, Nat2Z.id.
    set (pre := (fun k => h k (sel d v k)) <$> seqZ 0 (Z.of_nat m)).
    assert (length pre = m) as Hpre.
    { unfold pre. rewrite length_fmap, length_seqZ. lia. }
    destruct (lookup_lt_is_Some_2 v m) as [a Ha]; [lia|].
    rewrite (drop_S v a m Ha).
    assert (sel d (pre ++ a :: drop (S m) v) (Z.of_nat m) = a) as ->.
    { apply sel_lookup. rewrite Nat2Z.id.
      rewrite lookup_app_r by lia. by rewrite Hpre, Nat.sub_diag. }
    rewrite (sel_lookup d v (Z.of_nat m) a) by (by rewrite Nat2Z.id).
    rewrite insert_app_r_alt by lia. rewrite Hpre, Nat.sub_diag. simpl.
    by rewrite <- app_assoc.
Qed.

Lemma foldl_insert_range {A} (h : Z -> A -> A) (d : A) (v : list A) n :
  0 <= n -> Z.of_nat (length v) = n ->
  foldl (fun y k => <[Z.to_nat k := h k (sel d y k)]> y) v (range 0 n)
  = (fun k => h k (sel d v k)) <$> range 0 n.
Proof.
  intros Hn Hlen. unfold range. rewrite Z.sub_0_r.
  rewrite <- (Z2Nat.id n) by done.
  rewrite foldl_insert_seq by lia.
  rewrite drop_ge by lia. by rewrite app_nil_r.
Qed.

Section Access.
Context {T : Type} `{Scalar T}.

Local Abbreviation matrix := (SparseMatrix T).

(** ** Valid matrices *)

Lemma valid_csr_inv (A : matrix) : valid_csr A = true -> csr_inv A.
Proof.
  unfold valid_csr. rewrite !andb_true_iff, !bool_decide_eq_true.
  intros [[[[[[? ?] ?] ?] ?] ?] Hc]. split; try done.
  apply Forall_forall. intros c Hc'.
  rewrite forallb_forall in Hc. apply list_elem_of_In in Hc'.
  apply Hc in Hc'. by apply bool_decide_eq_true in Hc'.
Qed.

Lemma row_ptr_mono (A : matrix) i k :
  csr_inv A -> 0 <= i <= k -> k <= nrow A ->
  sel 0 (row_ptr A) i <= sel 0 (row_ptr A) k.
Proof.
  intros HA Hik Hk. pose proof (inv_len A HA).
  eapply (nondecreasing_lookup (row_ptr A) (Z.to_nat i) (Z.to_nat k)).
  - apply HA.
  - lia.
  - apply lookup_sel. lia.
  - apply lookup_sel. lia.
Qed.

(** The constructor from a triple checks all of the invariants but the
    order of [row_ptr] and its first element. *)
Lemma SparseMatrix_csr_valid rp ci (v : list T) st (A : matrix) :
  SparseMatrix_csr rp ci v st = Ret A ->
  Z.of_nat (length rp) <= UINT_MOD ->
  nondecreasing rp = true -> sel 0 rp 0 = 0 ->
  valid_csr A = true /\ row_ptr A = rp /\ col_ind A = ci /\ val A = v.
Proof.
  unfold SparseMatrix_csr. intros Hnew Hlen Hnd Hfirst.
  destruct (bool_decide (2 <= Z.of_nat (length rp))) eqn:H2; [|done].
  destruct (bool_decide (0 < Z.of_nat (length ci))) eqn:H0'; [|done].
  destruct (bool_decide (length ci = length v)) eqn:Hcv; [|done].
  simpl in Hnew.
  apply bool_decide_eq_true in H2. apply bool_decide_eq_true in Hcv.
  rewrite u32_small in Hnew by lia.
  destruct (load rp (Z.of_nat (length rp) - 1)) as [last|] eqn:Hlast; [|done].
  simpl in Hnew.
  destruct (bool_decide (last = Z.of_nat (length v))) eqn:Hl; [|done].
  simpl in Hnew.
  destruct (forallb _ ci) eqn:Hcols; [|done].
  simpl in Hnew. injection Hnew as <-.
  apply bool_decide_eq_true in Hl. apply load_Ret_inv in Hlast as [_ Hlast].
  split; [|done]. unfold valid_csr. simpl.
  rewrite Hnd, Hcols, !andb_true_r.
  rewrite !andb_true_iff, !bool_decide_eq_true.
  repeat split; try done; try lia.
  rewrite (sel_lookup 0 _ _ _ Hlast). done.
Qed.

(** The bounds of a row lie within the stored entries. *)
Lemma row_bounds (A : matrix) i :
  csr_inv A -> 0 <= i < nrow A ->
  0 <= sel 0 (row_ptr A) i <= sel 0 (row_ptr A) (i + 1)
  /\ sel 0 (row_ptr A) (i + 1) <= Z.of_nat (length (val A)).
Proof.
  intros HA Hi.
  pose proof (row_ptr_mono A 0 i HA ltac:(lia) ltac:(lia)).
  pose proof (row_ptr_mono A i (i + 1) HA ltac:(lia) ltac:(lia)).
  pose proof (row_ptr_mono A (i + 1) (nrow A) HA ltac:(lia) ltac:(lia)).
  rewrite (inv_first A HA) in *. rewrite (inv_last A HA) in *. lia.
Qed.

Lemma load_row_beg (A : matrix) i :
  csr_inv A -> 0 <= i < nrow A ->
  load (row_ptr A) i = Ret (sel 0 (row_ptr A) i).
Proof. intros HA Hi. apply load_Ret. pose proof (inv_len A HA). lia. Qed.

Lemma load_row_end (A : matrix) i :
  csr_inv A -> 0 <= i < nrow A ->
  load (row_ptr A) (u32 (i + 1)) = Ret (sel 0 (row_ptr A) (i + 1)).
Proof.
  intros HA Hi. pose proof (inv_len A HA). pose proof (inv_nrow A HA).
  rewrite u32_small by lia. apply load_Ret. lia.
Qed.

Lemma col_range (A : matrix) d :
  csr_inv A -> 0 <= d < Z.of_nat (length (val A)) ->
  0 <= sel 0 (col_ind A) d < nrow A.
Proof.
  intros HA Hd. pose proof (inv_cols_len A HA).
  assert (col_ind A !! Z.to_nat d = Some (sel 0 (col_ind A) d)) as Hl
    by (apply lookup_sel; lia).
  apply (Forall_lookup_1 _ _ _ _ (inv_cols A HA) Hl).
Qed.

Lemma row_index_range (A : matrix) i d :
  csr_inv A -> 0 <= i < nrow A ->
  d ∈ range (sel 0 (row_ptr A) i) (sel 0 (row_ptr A) (i + 1)) ->
  0 <= d < Z.of_nat (length (val A)).
Proof.
  intros HA Hi Hd. apply elem_of_range in Hd.
  pose proof (row_bounds A i HA Hi). lia.
Qed.

(** ** The scan of a row *)

Lemma scan_head (A : matrix) j ds :
  (forall d, d ∈ ds -> 0 <= d < Z.of_nat (length (col_ind A))) ->
  scan A j ds = Ret (head (matching A j ds)).
Proof.
  unfold matching. induction ds as [|d ds IH]; intros Hds; [done|].
  simpl. rewrite (load_Ret 0) by (apply Hds; left). simpl.
  rewrite filter_cons. case_decide.
  - reflexivity.
  - apply IH. intros d' Hd'. apply Hds. by right.
Qed.

Lemma first_match_head (A : matrix) j ds :
  first_match j (stored A <$> ds) = sel tzero (val A) <$> head (matching A j ds).
Proof.
  unfold matching. induction ds as [|d ds IH]; [done|].
  simpl. rewrite filter_cons. case_decide; [done|]. apply IH.
Qed.

Lemma first_match_app j (pre : list (Z * T)) v post :
  j ∉ pre.*1 -> first_match j (pre ++ (j, v) :: post) = Some v.
Proof.
  induction pre as [|e pre IH]; intros Hpre; simpl.
  - by rewrite decide_True.
  - rewrite decide_False.
    + apply IH. intros Hin. apply Hpre. simpl. by right.
    + intros He. apply Hpre. simpl. rewrite He. left.
Qed.

Lemma first_match_None j (es : list (Z * T)) : j ∉ es.*1 -> first_match j es = None.
Proof.
  induction es as [|e es IH]; intros Hes; [done|].
  simpl. rewrite decide_False.
  - apply IH. intros Hin. apply Hes. simpl. by right.
  - intros He. apply Hes. simpl. rewrite He. left.
Qed.

Lemma first_match_NoDup j v (es : list (Z * T)) :
  NoDup es.*1 -> (j, v) ∈ es -> first_match j es = Some v.
Proof.
  induction es as [|e es IH]; intros Hnd Hin; [by apply elem_of_nil in Hin|].
  simpl in *. apply NoDup_cons in Hnd as [Hne Hnd].
  apply elem_of_cons in Hin as [<-|Hin].
  - simpl. by rewrite decide_True.
  - rewrite decide_False; [by apply IH|].
    intros He. apply Hne. rewrite He.
    apply (list_elem_of_fmap_2 fst) in Hin. done.
Qed.

Lemma get_Ret (A : matrix) i j :
  csr_inv A -> 0 <= i < nrow A ->
  get A i j = Ret (default tzero (first_match j (row_entries A i))).
Proof.
  intros HA Hi. unfold get, row_entries.
  rewrite (load_row_beg A i), (load_row_end A i) by done. simpl.
  rewrite scan_head.
  2:{ intros d Hd. rewrite (inv_cols_len A HA). by eapply row_index_range. }
  simpl. rewrite first_match_head.
  destruct (head _) as [d|] eqn:Hd; simpl; [|done].
  apply load_Ret. apply head_Some_elem_of in Hd.
  apply list_elem_of_filter in Hd as [_ Hd]. by eapply row_index_range.
Qed.

Lemma diag_Ret (A : matrix) i :
  csr_inv A -> 0 <= i < nrow A ->
  sel 0 (row_ptr A) i < Z.of_nat (length (val A)) ->
  diag A i = Ret (first_value A i).
Proof.
  intros HA Hi Hlt. unfold diag, first_value.
  rewrite (load_row_beg A i) by done. simpl.
  apply load_Ret. pose proof (row_bounds A i HA Hi). lia.
Qed.

Lemma head_filter_split {A} (P : A -> Prop) `{!forall x, Decision (P x)}
    (ds : list A) (d : A) :
  head (filter P ds) = Some d ->
  exists l1 l2, ds = l1 ++ d :: l2 /\ P d /\ forall x, x ∈ l1 -> ~ P x.
Proof.
  induction ds as [|a ds IH]; [done|].
  rewrite filter_cons. case_decide as Ha.
  - simpl. intros [= ->]. exists [], ds. repeat split; [done|].
    intros x Hx. by apply elem_of_nil in Hx.
  - intros Hd. destruct (IH Hd) as (l1 & l2 & -> & HP & Hl1).
    exists (a :: l1), l2. repeat split; [done|].
    intros x Hx. apply elem_of_cons in Hx as [->|Hx]; [done|by apply Hl1].
Qed.

Lemma get_mut_head (p : process) (A : matrix) i j :
  csr_inv A -> 0 <= i < nrow A ->
  get_mut i j (p, A)
  = match head (matching A j (range (sel 0 (row_ptr A) i)
                                    (sel 0 (row_ptr A) (i + 1)))) with
    | Some d => (Ret d, (p, A))
    | None => (Fail Abort, print (NoElement i j) (p, A))
    end.
Proof.
  intros HA Hi. unfold get_mut, mbind, M_bind, gets, lift, modify. simpl.
  rewrite (load_row_beg A i), (load_row_end A i) by done.
  rewrite scan_head.
  2:{ intros d Hd. rewrite (inv_cols_len A HA). by eapply row_index_range. }
  destruct (head _) as [d|] eqn:Hd; [|done].
  apply head_Some_elem_of in Hd. apply list_elem_of_filter in Hd as [_ Hd].
  rewrite (load_Ret tzero) by (by eapply row_index_range). done.
Qed.

Lemma assign_get (A : matrix) i j d a :
  csr_inv A -> 0 <= i < nrow A ->
  head (matching A j (range (sel 0 (row_ptr A) i)
                            (sel 0 (row_ptr A) (i + 1)))) = Some d ->
  exists A', assign d a A = Ret A' /\ get A' i j = Ret a
    /\ nrow A' = nrow A /\ row_ptr A' = row_ptr A /\ col_ind A' = col_ind A
    /\ length (val A') = length (val A).
Proof.
  intros HA Hi Hd.
  assert (0 <= d < Z.of_nat (length (val A))) as Hrange.
  { apply head_Some_elem_of in Hd. apply list_elem_of_filter in Hd as [_ Hd].
    by eapply row_index_range. }
  unfold assign. rewrite store_Ret by done. simpl.
  eexists. split; [done|]. simpl. repeat split; [|by rewrite length_insert].
  rewrite get_Ret; simpl; [|by destruct HA; split; simpl;
                              rewrite ?length_insert|done].
  unfold row_entries. simpl. rewrite first_match_head.
  unfold matching in *. simpl. rewrite Hd. simpl.
  by rewrite sel_insert_eq.
Qed.

End Access.

Section Kernels.
Context {T : Type} `{Scalar T}.

Local Abbreviation matrix := (SparseMatrix T).
Local Abbreviation Vector := (@Vector T).

(** ** [multiply] *)

Lemma multiply_inner (A : matrix) (x : Vector) i ds (y : Vector) :
  csr_inv A -> size x = nrow A -> 0 <= i < Z.of_nat (length y) ->
  (forall d, d ∈ ds -> 0 <= d < Z.of_nat (length (val A))) ->
  for_each ds (fun j y =>
      a ← load (val A) j;
      c ← load (col_ind A) j;
      xc ← vget x c;
      yi ← vget y i;
      vset y i (tadd yi (tmul a xc))) y
  = Ret (<[Z.to_nat i :=
            foldl (fun acc e => tadd acc (tmul e.2 (sel tzero x e.1)))
                  (sel tzero y i) (stored A <$> ds)]> y).
Proof.
  intros HA Hx. revert y. induction ds as [|d ds IH]; intros y Hi Hds.
  - simpl. f_equal. symmetry. apply list_insert_id. by apply lookup_sel.
  - assert (0 <= d < Z.of_nat (length (val A))) as Hd by (apply Hds; left).
    pose proof (col_range A d HA Hd) as Hc.
    cbn [for_each]. unfold vget, vset.
    rewrite (load_Ret tzero (val A) d) by done. simpl.
    rewrite (load_Ret 0 (col_ind A) d) by (rewrite (inv_cols_len A HA); done).
    simpl.
    rewrite (load_Ret tzero x) by (unfold size in Hx; lia). simpl.
    rewrite (load_Ret tzero y i) by done. simpl.
    rewrite store_Ret by done. simpl.
    unfold vget, vset in IH. rewrite IH.
    + rewrite list_insert_insert_eq. rewrite sel_insert_eq by done. done.
    + rewrite length_insert. done.
    + intros d' Hd'. apply Hds. by right.
Qed.

Lemma multiply_row (A : matrix) (x y : Vector) scalar i :
  csr_inv A -> size x = nrow A -> size y = nrow A -> 0 <= i < nrow A ->
  (y ← vset y i tzero;
   row_beg ← load (row_ptr A) i;
   row_end ← load (row_ptr A) (u32 (i + 1));
   y ← for_each (range row_beg row_end) (fun j y =>
         a ← load (val A) j;
         c ← load (col_ind A) j;
         xc ← vget x c;
         yi ← vget y i;
         vset y i (tadd yi (tmul a xc))) y;
   yi ← vget y i;
   vset y i (tmul yi scalar))
  = Ret (<[Z.to_nat i := tmul (row_dot A x i) scalar]> y).
Proof.
  intros HA Hx Hy Hi. unfold size in Hy. unfold vset at 1.
  rewrite store_Ret by lia. simpl.
  rewrite (load_row_beg A i), (load_row_end A i) by done. simpl.
  rewrite (multiply_inner A x i); [|done|done|rewrite length_insert; lia|].
  2:{ intros d Hd. by eapply row_index_range. }
  simpl. unfold vget, vset.
  rewrite (load_Ret tzero) by (rewrite !length_insert; lia). simpl.
  rewrite store_Ret by (rewrite !length_insert; lia).
  rewrite !sel_insert_eq by (rewrite ?length_insert; lia).
  rewrite !list_insert_insert_eq. done.
Qed.

Lemma multiply_Ret (A : matrix) (x y : Vector) scalar :
  csr_inv A -> size x = nrow A -> size y = nrow A ->
  multiply A x y scalar = Ret (scaled_product A x scalar).
Proof.
  intros HA Hx Hy. unfold multiply.
  rewrite !bool_decide_eq_true_2 by congruence. simpl.
  rewrite (for_each_foldl_eq (fun y' : Vector => size y' = nrow A)
             (fun y' k => <[Z.to_nat k := (fun k _ => tmul (row_dot A x k) scalar)
                                            k (sel tzero y' k)]> y')).
  - f_equal. pose proof (inv_nrow A HA).
    unfold size in Hy.
    by rewrite (foldl_insert_range (fun k _ => tmul (row_dot A x k) scalar) tzero)
      by lia.
  - intros k y' Hk Hy'. apply elem_of_range in Hk. split.
    + by apply multiply_row.
    + unfold size. rewrite length_insert. done.
  - done.
Qed.

(** ** [Jacobi_step] *)

Lemma diag_nonzero_row (A : matrix) i :
  diag_nonzero A = true -> 0 <= i < nrow A ->
  diag A i = Ret (first_value A i) /\ tdiv_ok (first_value A i) = true.
Proof.
  unfold diag_nonzero. rewrite forallb_forall. intros Hall Hi.
  specialize (Hall i). rewrite <- list_elem_of_In, elem_of_range in Hall.
  specialize (Hall ltac:(lia)).
  destruct (diag A i) as [d|] eqn:Hd; [|done].
  unfold diag in Hd.
  destruct (load (row_ptr A) i) as [rb|] eqn:Hrb; [|done]. simpl in Hd.
  apply load_Ret_inv in Hrb as [_ Hrb]. apply load_Ret_inv in Hd as [_ Hd].
  unfold first_value.
  rewrite (sel_lookup 0 _ _ _ Hrb), (sel_lookup tzero _ _ _ Hd). done.
Qed.

Lemma divide_Ret (a d : T) : tdiv_ok d = true -> divide a d = Ret (tdiv a d).
Proof. unfold divide. by intros ->. Qed.

Lemma zip_with_range (g : Z -> T) (rhs : Vector) n :
  0 <= n -> Z.of_nat (length rhs) = n ->
  zip_with tadd (g <$> range 0 n) rhs
  = (fun i => tadd (g i) (sel tzero rhs i)) <$> range 0 n.
Proof.
  intros Hn Hlen. apply list_eq. intros k.
  rewrite lookup_zip_with, !list_lookup_fmap. unfold range.
  destruct (decide (Z.of_nat k < n)) as [Hk|Hk].
  - rewrite lookup_seqZ_lt by lia. simpl.
    rewrite <- (Nat2Z.id k) at 1. rewrite (lookup_sel tzero) by lia. simpl.
    by rewrite Z.add_0_l.
  - by rewrite lookup_seqZ_ge by lia.
Qed.

Lemma dot_diag (r : Vector) : dot r r = Ret (sum_squares r).
Proof.
  unfold dot, sum_squares. rewrite bool_decide_eq_true_2 by done. simpl.
  rewrite zip_diag, foldl_fmap. done.
Qed.

Lemma sel_fmap_range (g : Z -> T) n i :
  0 <= i < n -> sel tzero (g <$> range 0 n) i = g i.
Proof.
  intros Hi. apply sel_lookup. rewrite list_lookup_fmap. unfold range.
  rewrite lookup_seqZ_lt by lia. simpl. do 2 f_equal. lia.
Qed.

Lemma Jacobi_step_Ret (A : matrix) (x rhs : Vector) :
  csr_inv A -> diag_nonzero A = true ->
  size x = nrow A -> size rhs = nrow A ->
  Jacobi_step A x rhs = Ret (jacobi_update (residual_neg A rhs) A x).
Proof.
  intros HA Hd Hx Hrhs. pose proof (inv_nrow A HA) as Hn.
  unfold Jacobi_step, jacobi_update.
  rewrite multiply_Ret; [|done|done|].
  2:{ unfold size, Vector_new. rewrite length_replicate. lia. }
  simpl. unfold vadd_assign, scaled_product.
  rewrite bool_decide_eq_true_2.
  2:{ rewrite Hrhs. unfold size, range. rewrite length_fmap, length_seqZ. lia. }
  simpl. unfold size in Hrhs, Hx.
  rewrite (zip_with_range (fun i => tmul (row_dot A x i) tneg_one)) by lia.
  change (fun i => tadd (tmul (row_dot A x i) tneg_one) (sel tzero rhs i))
    with (residual_neg A rhs x).
  set (r := residual_neg A rhs x <$> range 0 (nrow A)).
  rewrite (for_each_foldl_eq (fun x' : Vector => Z.of_nat (length x') = nrow A)
             (fun x' k => <[Z.to_nat k :=
                (fun k a => tadd a (tdiv (sel tzero r k) (first_value A k)))
                  k (sel tzero x' k)]> x')).
  - simpl. rewrite dot_diag. simpl. do 2 f_equal.
    by rewrite (foldl_insert_range
                  (fun k a => tadd a (tdiv (sel tzero r k) (first_value A k))))
      by lia.
  - intros k x' Hk Hx'. apply elem_of_range in Hk.
    destruct (diag_nonzero_row A k Hd Hk) as [Hdk Hok].
    split; [|by rewrite length_insert].
    unfold vget, vset. rewrite (load_Ret tzero r).
    2:{ unfold r, range. rewrite length_fmap, length_seqZ. lia. }
    simpl. rewrite Hdk. simpl. rewrite divide_Ret by done. simpl.
    rewrite (load_Ret tzero x') by lia. simpl.
    by rewrite store_Ret by lia.
  - done.
Qed.

(** ** The relaxation sweeps *)

Lemma residual_loop (A : matrix) (x : Vector) ds (r : T) :
  csr_inv A -> size x = nrow A ->
  (forall d, d ∈ ds -> 0 <= d < Z.of_nat (length (val A))) ->
  for_each ds (fun j r =>
      a ← load (val A) j;
      c ← load (col_ind A) j;
      xc ← vget x c;
      Ret (tsub r (tmul a xc))) r
  = Ret (foldl (fun r e => tsub r (tmul e.2 (sel tzero x e.1))) r
               (stored A <$> ds)).
Proof.
  intros HA Hx. revert r. induction ds as [|d ds IH]; intros r Hds; [done|].
  assert (0 <= d < Z.of_nat (length (val A))) as Hd by (apply Hds; left).
  pose proof (col_range A d HA Hd) as Hc.
  cbn [for_each]. unfold vget.
  rewrite (load_Ret tzero (val A) d) by done. simpl.
  rewrite (load_Ret 0 (col_ind A) d) by (rewrite (inv_cols_len A HA); done).
  simpl.
  rewrite (load_Ret tzero x) by (unfold size in Hx; lia). simpl.
  unfold vget in IH. rewrite IH; [done|].
  intros d' Hd'. apply Hds. by right.
Qed.

Lemma relax_Ret (A : matrix) (rhs : Vector) omg succ i (x : Vector) :
  csr_inv A -> diag_nonzero A = true ->
  size x = nrow A -> size rhs = nrow A ->
  0 <= i < nrow A -> succ i = Ret (i + 1) ->
  relax A rhs omg succ i x
  = Ret (<[Z.to_nat i :=
            tadd (sel tzero x i)
                 (tdiv (tmul omg (residual_seq A rhs x i)) (first_value A i))]> x,
         residual_seq A rhs x i).
Proof.
  intros HA Hd Hx Hrhs Hi Hsucc. unfold relax, vget, vset.
  unfold size in Hx, Hrhs. pose proof (inv_len A HA) as Hlen.
  rewrite (load_Ret tzero rhs) by lia. simpl.
  rewrite (load_row_beg A i) by done. simpl.
  rewrite Hsucc. simpl.
  rewrite (load_Ret 0 (row_ptr A) (i + 1)) by lia. simpl.
  rewrite (residual_loop A x); [|done|done|].
  2:{ intros d Hd'. by eapply row_index_range. }
  simpl. destruct (diag_nonzero_row A i Hd Hi) as [-> Hok]. simpl.
  rewrite divide_Ret by done. simpl.
  rewrite (load_Ret tzero x) by lia. simpl.
  by rewrite store_Ret by lia.
Qed.

Lemma sweep_Ret (A : matrix) (rhs : Vector) omg succ rows (x : Vector) :
  csr_inv A -> diag_nonzero A = true ->
  size x = nrow A -> size rhs = nrow A ->
  (forall i, i ∈ rows -> 0 <= i < nrow A /\ succ i = Ret (i + 1)) ->
  sweep A rhs omg succ rows x
  = Ret (sweep_rows (residual_seq A rhs) A omg rows x).
Proof.
  intros HA Hd Hx Hrhs Hrows. unfold sweep, sweep_rows.
  rewrite (for_each_foldl_eq (fun s : Vector * T => size s.1 = nrow A)
             (relax_row (residual_seq A rhs) A omg)); [done| |done].
  intros i s Hi Hs. destruct (Hrows i Hi) as [Hin Hsucc]. cbv beta.
  rewrite (relax_Ret A rhs omg succ i s.1) by done. simpl.
  split; [done|]. unfold size. rewrite length_insert. done.
Qed.

Lemma sweep_rows_fst resid (A : matrix) omg rows (s : Vector * T) :
  (foldl (relax_row resid A omg) s rows).1
  = foldl (fun x i => (relax_row resid A omg (x, tzero) i).1) s.1 rows.
Proof.
  revert s. induction rows as [|i rows IH]; intros s; [done|].
  simpl. rewrite IH. done.
Qed.

Lemma forward_Ret (A : matrix) (rhs : Vector) omg (x : Vector) :
  csr_inv A -> diag_nonzero A = true ->
  size x = nrow A -> size rhs = nrow A ->
  for_each (range 0 (nrow A)) (fun i x =>
      xr ← relax A rhs omg usucc i x; Ret xr.1) x
  = Ret (sweep_rows (residual_seq A rhs) A omg (range 0 (nrow A)) x).1.
Proof.
  intros HA Hd Hx Hrhs. unfold sweep_rows. rewrite sweep_rows_fst.
  rewrite (for_each_foldl_eq (fun x' : Vector => size x' = nrow A)
             (fun x' i => (relax_row (residual_seq A rhs) A omg (x', tzero) i).1));
    [done| |done].
  intros i x' Hi Hx'. apply elem_of_range in Hi.
  pose proof (inv_nrow A HA). cbv beta.
  rewrite (relax_Ret A rhs omg usucc i x'); try done.
  - simpl. split; [done|]. unfold size. by rewrite length_insert.
  - unfold usucc. rewrite u32_small by lia. done.
Qed.

Lemma SOR_step_Ret (A : matrix) (x rhs : Vector) omg :
  csr_inv A -> diag_nonzero A = true ->
  size x = nrow A -> size rhs = nrow A ->
  SOR_step A x rhs omg
  = Ret (let s := sweep_rows (residual_seq A rhs) A omg (range 0 (nrow A)) x in
         (s.1, tsqrt s.2)).
Proof.
  intros HA Hd Hx Hrhs. unfold SOR_step. pose proof (inv_nrow A HA).
  rewrite sweep_Ret; [done|done|done|done|done|].
  intros i Hi. apply elem_of_range in Hi. split; [lia|].
  unfold usucc. rewrite u32_small by lia. done.
Qed.

Lemma backward_rows_reverse n :
  0 < n <= INT_MAX -> backward_rows n = reverse (range 0 n).
Proof.
  intros Hn. unfold backward_rows, to_int. unfold INT_MAX in *.
  rewrite u32_small by (unfold UINT_MOD; lia).
  rewrite decide_True by (unfold INT_MAX; lia). do 2 f_equal. lia.
Qed.

Lemma backward_rows_skipped n :
  INT_MAX + 1 < n < UINT_MOD -> backward_rows n = [].
Proof.
  intros Hn. unfold backward_rows, to_int. unfold INT_MAX, UINT_MOD in *.
  rewrite u32_small by (unfold UINT_MOD; lia).
  rewrite decide_False by (unfold INT_MAX; lia).
  unfold range, UINT_MOD. rewrite seqZ_nil by lia. done.
Qed.

Lemma SSOR_step_Ret (A : matrix) (x rhs : Vector) omg :
  csr_inv A -> diag_nonzero A = true ->
  size x = nrow A -> size rhs = nrow A -> nrow A <= INT_MAX ->
  SSOR_step A x rhs omg
  = Ret (let x1 := (sweep_rows (residual_seq A rhs) A omg
                      (range 0 (nrow A)) x).1 in
         let s := sweep_rows (residual_seq A rhs) A omg
                    (reverse (range 0 (nrow A))) x1 in
         (s.1, tsqrt s.2)).
Proof.
  intros HA Hd Hx Hrhs Hmax. unfold SSOR_step. pose proof (inv_nrow A HA).
  rewrite forward_Ret by done. simpl.
  rewrite backward_rows_reverse by lia.
  rewrite sweep_Ret; [done|done|done| |done|].
  - unfold sweep_rows. rewrite sweep_rows_fst. simpl.
    generalize (range 0 (nrow A)). intros rows. revert x Hx.
    induction rows as [|i rows IH]; intros x Hx; [done|].
    simpl. apply IH. unfold size. by rewrite length_insert.
  - intros i Hi. apply elem_of_reverse, elem_of_range in Hi. split; [lia|].
    unfold isucc. by rewrite decide_True by lia.
Qed.

End Kernels.

(** ** The order of the operations *)

Section Laws.
Context {T : Type} `{Scalar T}.

Local Abbreviation matrix := (SparseMatrix T).
Local Abbreviation Vector := (@Vector T).

Lemma foldl_sub_add (p : Z * T -> T) (a : T) es :
  ring_laws ->
  foldl (fun r e => tsub r (p e)) a es
  = tsub a (foldl (fun acc e => tadd acc (p e)) tzero es).
Proof.
  intros L. induction es as [|e es IH] using rev_ind.
  - simpl. symmetry. apply (sub_zero L).
  - rewrite !foldl_app. simpl. rewrite IH. apply (sub_sub L).
Qed.

Lemma residual_seq_eq (A : matrix) (rhs x : Vector) i :
  ring_laws -> residual_seq A rhs x i = residual A rhs x i.
Proof.
  intros L. unfold residual_seq, residual, row_dot.
  apply (foldl_sub_add (fun e => tmul e.2 (sel tzero x e.1))). done.
Qed.

Lemma residual_neg_eq (A : matrix) (rhs x : Vector) i :
  ring_laws -> residual_neg A rhs x i = residual A rhs x i.
Proof. intros L. unfold residual_neg, residual. apply (neg_add L). Qed.

Lemma sweep_rows_ext r1 r2 (A : matrix) omg rows (x : Vector) :
  (forall x' i, r1 x' i = r2 x' i) ->
  sweep_rows r1 A omg rows x = sweep_rows r2 A omg rows x.
Proof.
  intros Hr. unfold sweep_rows. generalize (x, tzero). clear x.
  induction rows as [|i rows IH]; intros s; [done|].
  simpl. rewrite IH. unfold relax_row. by rewrite Hr.
Qed.

Lemma jacobi_update_ext r1 r2 (A : matrix) (x : Vector) :
  (forall x' i, r1 x' i = r2 x' i) ->
  jacobi_update r1 A x = jacobi_update r2 A x.
Proof.
  intros Hr. unfold jacobi_update.
  assert (r1 x <$> range 0 (nrow A) = r2 x <$> range 0 (nrow A)) as ->; [|done].
  apply list_fmap_ext. intros _ i _. apply Hr.
Qed.

End Laws.

(** [int] arithmetic obeys the laws. *)

Lemma u32_wrap_int z : (wrap_int z) mod UINT_MOD = z mod UINT_MOD.
Proof.
  unfold wrap_int, to_int, u32. case_decide.
  - apply Zmod_mod.
  - replace (z mod UINT_MOD - UINT_MOD) with (z mod UINT_MOD + (-1) * UINT_MOD)
      by lia.
    rewrite Z_mod_plus_full. apply Zmod_mod.
Qed.

Lemma wrap_int_id z : int_range z -> wrap_int z = z.
Proof.
  unfold int_range, wrap_int, to_int, u32, INT_MIN, INT_MAX, UINT_MOD.
  intros Hz. destruct (decide (0 <= z)).
  - rewrite Z.mod_small by lia. rewrite decide_True by lia. done.
  - assert (z mod 2 ^ 32 = z + 2 ^ 32) as ->.
    { symmetry. apply (Z.mod_unique z (2 ^ 32) (-1)); lia. }
    rewrite decide_False by lia. lia.
Qed.

Lemma int32_of_eq a b : a mod UINT_MOD = b mod UINT_MOD -> int32_of a = int32_of b.
Proof.
  intros Hab. apply dsig_eq. simpl. unfold wrap_int, u32. by rewrite Hab.
Qed.

Lemma int32_of_val (a : int32) : int32_of (`a) = a.
Proof.
  apply dsig_eq. simpl. apply wrap_int_id.
  destruct a as [z Hz]. simpl. by apply bool_decide_unpack in Hz.
Qed.

Lemma int32_ring_laws : @ring_laws int32 int_scalar.
Proof.
  split; simpl.
  - intros a b. f_equal. lia.
  - intros a. change (wrap_int 0) with 0. rewrite Z.sub_0_r.
    apply int32_of_val.
  - intros a b c. apply int32_of_eq.
    rewrite <- Zminus_mod_idemp_l, u32_wrap_int, Zminus_mod_idemp_l.
    rewrite <- (Zminus_mod_idemp_r (`a)), u32_wrap_int, Zminus_mod_idemp_r.
    f_equal. lia.
  - intros a b. apply int32_of_eq. change (wrap_int (-1)) with (-1).
    rewrite <- Zplus_mod_idemp_l, u32_wrap_int, Zplus_mod_idemp_l.
    f_equal. lia.
Qed.

(** ** The incremental protocol *)

Section Protocol.
Context {T : Type} `{Scalar T}.

Local Abbreviation matrix := (SparseMatrix T).
Local Abbreviation entry := (@entry T).
Local Abbreviation St := (@St T).

Lemma set_Ret (p : process) (A : matrix) i j (v : T) :
  state A = OPEN -> 0 <= i < nrow A -> 0 <= j < nrow A ->
  nrow A < UINT_MOD -> Z.of_nat (length (row_ptr A)) = nrow A + 1 ->
  set i j v (p, A)
  = (Ret tt,
     ({| count := u32 (count p + 1); cout := cout p |},
      {| nrow := nrow A;
         row_ptr :=
           <[Z.to_nat (i + 1) :=
               u32 ((if decide (sel 0 (row_ptr A) (i + 1) = 0)
                     then count p else sel 0 (row_ptr A) (i + 1)) + 1)]>
             (row_ptr A);
         col_ind := col_ind A ++ [j];
         val := val A ++ [v];
         state := state A |})).
Proof.
  intros Hst Hi Hj Hn Hlen.
  unfold set, mbind, M_bind, gets, lift, modify. simpl.
  rewrite Hst. simpl.
  rewrite !bool_decide_eq_true_2 by done. simpl.
  rewrite u32_small by lia.
  rewrite (load_Ret 0 (row_ptr A) (i + 1)) by lia.
  case_decide as Hr.
  - simpl. rewrite store_Ret by lia. simpl.
    rewrite (load_Ret 0) by (rewrite length_insert; lia).
    rewrite store_Ret by (rewrite length_insert; lia).
    unfold mret, M_ret, push_entry, with_row_ptr, incr_count. simpl.
    rewrite sel_insert_eq by lia. rewrite list_insert_insert_eq.
    by rewrite Hst.
  - simpl. rewrite (load_Ret 0) by lia. rewrite store_Ret by lia.
    unfold push_entry, with_row_ptr, incr_count. simpl. by rewrite Hst.
Qed.

Lemma nondecreasing_app_l l1 l2 :
  nondecreasing (l1 ++ l2) = true -> nondecreasing l1 = true.
Proof.
  induction l1 as [|a l1 IH]; [done|].
  destruct l1 as [|b l1]; [done|].
  change (bool_decide (a <= b) && nondecreasing ((b :: l1) ++ l2) = true ->
          bool_decide (a <= b) && nondecreasing (b :: l1) = true).
  rewrite !andb_true_iff. intros [? ?]. split; [done|]. by apply IH.
Qed.

Lemma nondecreasing_snoc l a b :
  nondecreasing (l ++ [a]) = true -> b ∈ l -> b <= a.
Proof.
  intros Hnd Hb. apply list_elem_of_lookup in Hb as [k Hk].
  apply (nondecreasing_lookup (l ++ [a]) k (length l) b a Hnd).
  - apply lookup_lt_Some in Hk. lia.
  - by apply lookup_app_l_Some.
  - rewrite lookup_app_r by lia. by rewrite Nat.sub_diag.
Qed.

Lemma protocol_snoc n (es : list entry) (e : entry) :
  protocol n (es ++ [e]) = true ->
  protocol n es = true /\ 0 <= e.1.1 < n /\ 0 <= e.1.2 < n
  /\ forall e' : entry, e' ∈ es -> e'.1.1 <= e.1.1.
Proof.
  unfold protocol. rewrite fmap_app, forallb_app, !andb_true_iff. simpl.
  rewrite !andb_true_iff, !bool_decide_eq_true.
  intros [[Hes [[Hi Hj] _]] Hnd]. repeat split; try done; try lia.
  - by apply nondecreasing_app_l in Hnd.
  - intros e' He'. apply (nondecreasing_snoc _ _ _ Hnd).
    by apply (list_elem_of_fmap_2 (fun e : entry => e.1.1)).
Qed.

Lemma inserted_in_snoc k (es : list entry) (e : entry) :
  inserted_in k (es ++ [e])
  = inserted_in k es + (if decide (e.1.1 = k) then 1 else 0).
Proof.
  unfold inserted_in. rewrite filter_app, length_app, filter_cons, filter_nil.
  case_decide; simpl; lia.
Qed.

Lemma inserted_through_snoc k (es : list entry) (e : entry) :
  inserted_through k (es ++ [e])
  = inserted_through k es + (if decide (e.1.1 <= k) then 1 else 0).
Proof.
  unfold inserted_through.
  rewrite filter_app, length_app, filter_cons, filter_nil.
  case_decide; simpl; lia.
Qed.

Lemma inserted_in_nonneg k (es : list entry) : 0 <= inserted_in k es.
Proof. unfold inserted_in. lia. Qed.

Lemma inserted_in_le_through k (es : list entry) :
  inserted_in k es <= inserted_through k es <= Z.of_nat (length es).
Proof.
  unfold inserted_in, inserted_through.
  induction es as [|e es IH]; [done|].
  rewrite !filter_cons. simpl.
  repeat case_decide; simpl; lia.
Qed.

Lemma inserted_through_all k (es : list entry) :
  (forall e : entry, e ∈ es -> e.1.1 <= k) ->
  inserted_through k es = Z.of_nat (length es).
Proof.
  unfold inserted_through. induction es as [|e es IH]; intros Hall; [done|].
  rewrite filter_cons. rewrite decide_True by (apply Hall; left).
  simpl. rewrite Nat2Z.inj_succ, IH; [lia|].
  intros e' He'. apply Hall. by right.
Qed.

Lemma inserted_in_above k (es : list entry) :
  (forall e : entry, e ∈ es -> e.1.1 < k) -> inserted_in k es = 0.
Proof.
  unfold inserted_in. induction es as [|e es IH]; intros Hall; [done|].
  rewrite filter_cons.
  rewrite decide_False by (specialize (Hall e ltac:(left)); lia).
  apply IH. intros e' He'. apply Hall. by right.
Qed.

Lemma built_set c n (es : list entry) out (s : St) i j (v : T) :
  0 < n < UINT_MOD - 1 ->
  built c n es out s -> protocol n (es ++ [(i, j, v)]) = true ->
  exists s', set i j v s = (Ret tt, s') /\ built c n (es ++ [(i, j, v)]) out s'.
Proof.
  intros Hn Hb Hp. destruct s as [p A].
  apply protocol_snoc in Hp as (Hp & Hi & Hj & Hle). simpl in Hi, Hj, Hle.
  destruct Hb as [Hcnt Hout Hnrow Hst Hcols Hvals Hlen Hfirst Hrows].
  simpl in *. subst n.
  eexists. split.
  { apply set_Ret; try done; lia. }
  assert (inserted_through i es = Z.of_nat (length es)) as Hthrough
    by (by apply inserted_through_all).
  split; simpl.
  - rewrite Hcnt, u32_succ, length_app. simpl. f_equal. lia.
  - done.
  - done.
  - done.
  - rewrite Hcols, fmap_app. done.
  - rewrite Hvals, fmap_app. done.
  - rewrite length_insert. done.
  - rewrite list_lookup_insert_ne by lia. done.
  - intros k Hk. unfold offset.
    rewrite inserted_in_snoc, inserted_through_snoc. simpl.
    pose proof (inserted_in_nonneg k es) as Hnn.
    destruct (decide (k = i)) as [->|Hne].
    + rewrite list_lookup_insert_eq by lia.
      rewrite (sel_lookup 0 _ _ _ (Hrows i Hi)).
      rewrite (decide_True (P := i = i)) by done.
      rewrite (decide_True (P := i <= i)) by lia.
      rewrite (decide_False (P := inserted_in i es + 1 = 0)) by lia.
      f_equal. unfold offset. rewrite Hthrough, Hcnt.
      destruct (decide (inserted_in i es = 0)) as [Hz|Hz].
      * rewrite decide_True by done. rewrite u32_succ. f_equal. lia.
      * case_decide; rewrite u32_succ; f_equal; lia.
    + rewrite list_lookup_insert_ne by lia. rewrite Hrows by done.
      rewrite (decide_False (P := i = k)) by done. rewrite Z.add_0_r.
      f_equal. unfold offset. case_decide as Hz; [done|].
      rewrite decide_False; [by rewrite Z.add_0_r|].
      intros Hik. apply Hz. apply inserted_in_above.
      intros e He. specialize (Hle e He). lia.
Qed.

Lemma set_all_app (es1 es2 : list entry) (s : St) :
  set_all (es1 ++ es2) s
  = match set_all es1 s with
    | (Ret _, s') => set_all es2 s'
    | (Fail e, s') => (Fail e, s')
    end.
Proof.
  revert s. induction es1 as [|e es1 IH]; intros s; [done|].
  simpl. unfold set_all in *. simpl. unfold mbind, M_bind at 1 3.
  destruct (set e.1.1 e.1.2 e.2 s) as [[[]|f] s']; [apply IH|done].
Qed.

Lemma build_built (p : process) n (es : list entry) :
  0 <= count p < UINT_MOD -> 0 < n < UINT_MOD - 1 -> protocol n es = true ->
  exists s, build p n es = (Ret tt, s) /\ built (count p) n es (cout p) s.
Proof.
  intros Hc Hn. unfold build, SparseMatrix_new.
  rewrite bool_decide_eq_true_2 by lia. simpl.
  induction es as [|e es IH] using rev_ind; intros Hp.
  - eexists. split; [done|]. split; simpl; try done.
    + rewrite Z.add_0_r. by rewrite u32_small.
    + rewrite length_replicate, u32_small by lia. lia.
    + rewrite u32_small by lia. apply lookup_replicate_2. lia.
    + intros k Hk. rewrite u32_small by lia.
      rewrite lookup_replicate_2 by lia. done.
  - destruct (protocol_snoc n es e Hp) as (Hp' & _).
    destruct (IH Hp') as (s & Hs & Hb).
    destruct e as [[i j] v].
    destruct (built_set _ _ _ _ s i j v Hn Hb Hp) as (s' & Hs' & Hb').
    exists s'. split; [|done].
    rewrite set_all_app, Hs. unfold set_all. simpl.
    unfold mbind, M_bind. rewrite Hs'. done.
Qed.

(** *** [close] *)

Lemma close_loop (l : list Z) pre prev (s : St) i :
  row_ptr s.2 = pre ++ prev :: l ->
  Z.of_nat (length pre) + 1 = i ->
  i + Z.of_nat (length l) <= UINT_MOD ->
  for_eachM (seqZ i (Z.of_nat (length l))) close_row s
  = (Ret tt, closed_state (pre ++ prev :: fill prev l) (warnings i l)
               (state s.2) s).
Proof.
  revert pre prev s i. induction l as [|a l IH]; intros pre prev s i Hrp Hi Hmax.
  - simpl. unfold mret, M_ret. f_equal.
    destruct s as [[c o] [n rp ci v st]]. simpl in *. subst rp.
    unfold closed_state. simpl. by rewrite app_nil_r.
  - rewrite seqZ_cons by (simpl; lia). unfold Z.succ.
    replace (Z.pred (Z.of_nat (length (a :: l)))) with (Z.of_nat (length l))
      by (simpl; lia).
    cbn [for_eachM]. unfold mbind, M_bind at 1.
    assert (load (row_ptr s.2) i = Ret a) as Hload.
    { unfold load. rewrite decide_True by lia. rewrite Hrp.
      replace (Z.to_nat i) with (length pre + 1)%nat by lia.
      rewrite lookup_app_r by lia.
      replace (length pre + 1 - length pre)%nat with 1%nat by lia. done. }
    assert (load (row_ptr s.2) (u32 (i - 1)) = Ret prev) as Hprev.
    { rewrite u32_small by lia.
      unfold load. rewrite decide_True by lia. rewrite Hrp.
      replace (Z.to_nat (i - 1)) with (length pre + 0)%nat by lia.
      rewrite lookup_app_r by lia.
      replace (length pre + 0 - length pre)%nat with 0%nat by lia. done. }
    assert (store (row_ptr s.2) i prev = Ret (pre ++ prev :: prev :: l))
      as Hstore.
    { rewrite store_Ret by (rewrite Hrp, length_app; simpl; lia).
      f_equal. rewrite Hrp.
      replace (Z.to_nat i) with (length pre + 1)%nat by lia.
      rewrite insert_app_r. done. }
    unfold close_row, mbind, M_bind, gets, lift, modify. simpl.
    rewrite Hload. simpl. case_decide as Ha.
    + subst a. rewrite Hprev, Hstore. simpl.
      rewrite (IH (pre ++ [prev]) prev).
      * f_equal. unfold closed_state. simpl.
        rewrite <- !app_assoc. simpl. done.
      * simpl. by rewrite <- app_assoc.
      * rewrite length_app. simpl. lia.
      * rewrite length_cons in Hmax. lia.
    + unfold mret, M_ret.
      rewrite (IH (pre ++ [prev]) a).
      * f_equal. unfold closed_state. simpl.
        rewrite <- !app_assoc. simpl. done.
      * by rewrite Hrp, <- app_assoc.
      * rewrite length_app. simpl. lia.
      * rewrite length_cons in Hmax. lia.
Qed.

Lemma close_Ret (s : St) r0 l :
  0 < nrow s.2 < UINT_MOD - 1 ->
  row_ptr s.2 = r0 :: l -> Z.of_nat (length l) = nrow s.2 ->
  close s = (Ret tt, closed_state (r0 :: fill r0 l) (warnings 1 l) CLOSED s).
Proof.
  intros Hn Hrp Hlen. unfold close, mbind, M_bind, gets at 1. simpl.
  unfold range. rewrite u32_small by lia.
  replace (nrow s.2 + 1 - 1) with (Z.of_nat (length l)) by lia.
  rewrite (close_loop l [] r0 s 1 Hrp) by (simpl; lia).
  unfold modify, with_state, closed_state. simpl. done.
Qed.

Lemma fill_length prev l : length (fill prev l) = length l.
Proof.
  revert prev. induction l as [|a l IH]; intros prev; [done|].
  simpl. by rewrite IH.
Qed.

Lemma fill_nonzero l prev (k : nat) a :
  l !! k = Some a -> a <> 0 -> fill prev l !! k = Some a.
Proof.
  revert prev k. induction l as [|b l IH]; intros prev k Hk Ha; [done|].
  destruct k as [|k]; simpl in *.
  - simplify_eq. by rewrite decide_False.
  - by apply IH.
Qed.

Lemma fill_zero l prev (k : nat) :
  l !! k = Some 0 -> fill prev l !! k = (prev :: fill prev l) !! k.
Proof.
  revert prev k. induction l as [|b l IH]; intros prev k Hk; [done|].
  destruct k as [|k]; simpl in *.
  - simplify_eq. by rewrite decide_True.
  - by apply IH.
Qed.

Lemma warnings_filter (P : Z -> Prop) `{!forall k, Decision (P k)} l i :
  (forall k : nat, (k < length l)%nat ->
     (l !! k = Some 0 <-> P (i + Z.of_nat k))) ->
  warnings (i + 1) l
  = (fun k => RowEmpty (k + 1)) <$> filter P (seqZ i (Z.of_nat (length l))).
Proof.
  revert i. induction l as [|a l IH]; intros i HP; [done|].
  rewrite seqZ_cons by (simpl; lia). unfold Z.succ.
  replace (Z.pred (Z.of_nat (length (a :: l)))) with (Z.of_nat (length l))
    by (simpl; lia).
  cbn [warnings]. rewrite filter_cons.
  pose proof (HP 0%nat ltac:(simpl; lia)) as Hhd. simpl in Hhd.
  rewrite Z.add_0_r in Hhd.
  rewrite (IH (i + 1)).
  - destruct (decide (a = 0)) as [->|Ha].
    + rewrite decide_True by (by apply Hhd). done.
    + rewrite decide_False; [done|]. intros HPi. apply Hhd in HPi. congruence.
  - intros k Hk. specialize (HP (S k) ltac:(simpl; lia)). simpl in HP.
    replace (i + 1 + Z.of_nat k) with (i + Z.of_nat (S k)) by lia. done.
Qed.

Lemma offset_zero_iff c k (es : list entry) :
  0 <= c -> c + Z.of_nat (length es) < UINT_MOD ->
  offset c k es = 0 <-> inserted_in k es = 0.
Proof.
  intros Hc Hmax. unfold offset.
  pose proof (inserted_in_nonneg k es). pose proof (inserted_in_le_through k es).
  case_decide as Hz; [done|].
  rewrite u32_small by lia. lia.
Qed.

Lemma offset_nowrap c k (es : list entry) :
  0 <= c -> c + Z.of_nat (length es) < UINT_MOD -> inserted_in k es <> 0 ->
  offset c k es = c + inserted_through k es.
Proof.
  intros Hc Hmax Hk. unfold offset.
  pose proof (inserted_in_nonneg k es).
  pose proof (inserted_in_le_through k es).
  rewrite decide_False by done. apply u32_small. lia.
Qed.

(** *** The first matrix of a process is valid once closed *)

Lemma inserted_through_step k (es : list entry) :
  inserted_through k es = inserted_through (k - 1) es + inserted_in k es.
Proof.
  unfold inserted_through, inserted_in. induction es as [|e es IH]; [done|].
  rewrite !filter_cons. repeat case_decide; simpl; lia.
Qed.

Lemma inserted_through_below k (es : list entry) :
  (forall e : entry, e ∈ es -> k < e.1.1) -> inserted_through k es = 0.
Proof.
  unfold inserted_through. induction es as [|e es IH]; intros Hall; [done|].
  rewrite filter_cons.
  rewrite decide_False by (specialize (Hall e ltac:(left)); lia).
  apply IH. intros e' He'. apply Hall. by right.
Qed.

Lemma protocol_in_range n (es : list entry) (e : entry) :
  protocol n es = true -> e ∈ es -> 0 <= e.1.1 < n /\ 0 <= e.1.2 < n.
Proof.
  unfold protocol. rewrite andb_true_iff, forallb_forall.
  intros [Hall _] He. apply list_elem_of_In in He. apply Hall in He.
  apply andb_true_iff in He as [? ?]. by rewrite !bool_decide_eq_true in *.
Qed.

Lemma nondecreasing_intro l :
  (forall (i : nat) a b, l !! i = Some a -> l !! S i = Some b -> a <= b) ->
  nondecreasing l = true.
Proof.
  induction l as [|a l IH]; intros Hl; [done|].
  destruct l as [|b l]; [done|].
  change (bool_decide (a <= b) && nondecreasing (b :: l) = true).
  rewrite andb_true_iff, bool_decide_eq_true. split.
  - by apply (Hl 0%nat).
  - apply IH. intros i a' b' Ha' Hb'. by apply (Hl (S i)).
Qed.

Lemma built_row_ptr c n (es : list entry) out (s : St) :
  built c n es out s ->
  exists l, row_ptr s.2 = 0 :: l /\ Z.of_nat (length l) = n
    /\ forall k, 0 <= k < n -> l !! Z.to_nat k = Some (offset c k es).
Proof.
  intros [_ _ _ _ _ _ Hlen Hfirst Hrows].
  destruct (row_ptr s.2) as [|r0 l]; [done|].
  simpl in Hfirst. injection Hfirst as ->.
  exists l. split; [done|]. split; [simpl in Hlen; lia|].
  intros k Hk. specialize (Hrows k Hk).
  by replace (Z.to_nat (k + 1)) with (S (Z.to_nat k)) in Hrows by lia.
Qed.

Lemma fill_cumulative n (es : list entry) l (k : nat) :
  Z.of_nat (length es) < UINT_MOD -> protocol n es = true ->
  (forall k, 0 <= k < n -> l !! Z.to_nat k = Some (offset 0 k es)) ->
  Z.of_nat k < n ->
  fill 0 l !! k = Some (inserted_through (Z.of_nat k) es).
Proof.
  intros Hmax Hp Hl. induction k as [|k IH]; intros Hk.
  - pose proof (Hl 0 ltac:(lia)) as H0.
    change (Z.to_nat 0) with 0%nat in H0. change (Z.of_nat 0) with 0.
    rewrite (inserted_through_step 0 es), (inserted_through_below (0 - 1)).
    2:{ intros e He. destruct (protocol_in_range n es e Hp He). lia. }
    destruct (decide (inserted_in 0 es = 0)) as [Hz|Hz].
    + rewrite fill_zero by (rewrite H0; unfold offset; by rewrite decide_True).
      simpl. f_equal. lia.
    + rewrite (fill_nonzero l 0 0%nat _ H0).
      * f_equal. rewrite offset_nowrap by (done || lia).
        rewrite (inserted_through_step 0 es), (inserted_through_below (0 - 1)).
        -- lia.
        -- intros e He. destruct (protocol_in_range n es e Hp He). lia.
      * by rewrite offset_zero_iff by (done || lia).
  - pose proof (Hl (Z.of_nat (S k)) ltac:(lia)) as HS.
    rewrite Nat2Z.id in HS.
    rewrite (inserted_through_step (Z.of_nat (S k)) es).
    replace (Z.of_nat (S k) - 1) with (Z.of_nat k) by lia.
    destruct (decide (inserted_in (Z.of_nat (S k)) es = 0)) as [Hz|Hz].
    + rewrite fill_zero by (rewrite HS; unfold offset; by rewrite decide_True).
      simpl. rewrite IH by lia. f_equal. lia.
    + rewrite (fill_nonzero l 0 _ _ HS).
      * f_equal. rewrite offset_nowrap by (done || lia).
        rewrite (inserted_through_step (Z.of_nat (S k)) es).
        replace (Z.of_nat (S k) - 1) with (Z.of_nat k) by lia. lia.
      * by rewrite offset_zero_iff by (done || lia).
Qed.

Lemma inserted_through_mono k (es : list entry) :
  inserted_through k es <= inserted_through (k + 1) es.
Proof.
  rewrite (inserted_through_step (k + 1) es).
  replace (k + 1 - 1) with k by lia.
  pose proof (inserted_in_nonneg (k + 1) es). lia.
Qed.

Lemma close_valid (p : process) n (es : list entry) :
  count p = 0 -> Z.of_nat (length es) < UINT_MOD ->
  0 < n < UINT_MOD - 1 -> protocol n es = true ->
  exists s s' : St,
    build p n es = (Ret tt, s) /\ close s = (Ret tt, s')
    /\ valid_csr s'.2 = true
    /\ forall k, 0 <= k < n ->
         sel 0 (row_ptr s'.2) (k + 1) = inserted_through k es.
Proof.
  intros Hc Hmax Hn Hp.
  destruct (build_built p n es ltac:(rewrite Hc; by vm_compute) Hn Hp)
    as (s & Hbuild & Hb).
  destruct (built_row_ptr _ _ _ _ _ Hb) as (l & Hrp & Hlen & Hl).
  rewrite Hc in Hl.
  destruct Hb as [_ _ Hnrow _ Hcols Hvals _ _ _].
  exists s, (closed_state (0 :: fill 0 l) (warnings 1 l) CLOSED s).
  split; [done|]. split; [apply close_Ret; [lia|done|lia]|].
  assert (forall k : nat, Z.of_nat k < n ->
            fill 0 l !! k = Some (inserted_through (Z.of_nat k) es)) as Hfill
    by (intros k Hk; by apply (fill_cumulative n)).
  split.
  - unfold valid_csr, closed_state. cbn [snd row_ptr nrow col_ind val].
    rewrite Hnrow, !andb_true_iff, !bool_decide_eq_true.
    split; [split; [split; [split; [split; [split|]|]|]|]|].
    + lia.
    + rewrite length_cons, fill_length. lia.
    + done.
    + apply nondecreasing_intro. intros i a b Ha Hb.
      assert (Z.of_nat i < n) as Hi.
      { apply lookup_lt_Some in Hb. simpl in Hb. rewrite fill_length in Hb.
        lia. }
      simpl in Hb. rewrite Hfill in Hb by done. injection Hb as <-.
      destruct i as [|i]; simpl in Ha.
      * injection Ha as <-. unfold inserted_through. lia.
      * rewrite Hfill in Ha by lia. injection Ha as <-.
        replace (Z.of_nat (S i)) with (Z.of_nat i + 1) by lia.
        apply inserted_through_mono.
    + unfold sel. replace (Z.to_nat n) with (S (Z.to_nat (n - 1))) by lia.
      simpl. rewrite Hfill by lia. simpl.
      rewrite Z2Nat.id by lia. rewrite inserted_through_all.
      * rewrite Hvals. by rewrite length_fmap.
      * intros e He. destruct (protocol_in_range n es e Hp He). lia.
    + rewrite Hcols, Hvals. by rewrite !length_fmap.
    + rewrite Hcols. apply forallb_forall. intros c Hc'.
      apply list_elem_of_In, list_elem_of_fmap in Hc' as (e & -> & He).
      apply bool_decide_eq_true.
      by destruct (protocol_in_range n es e Hp He).
  - intros k Hk. simpl. unfold sel.
    replace (Z.to_nat (k + 1)) with (S (Z.to_nat k)) by lia. simpl.
    rewrite Hfill by lia. simpl. f_equal. lia.
Qed.

End Protocol.

(** * The claims of the specification *)


(** C1.  The offsets that [set] leaves are not those of the matrix alone:
    two matrices of one row are built one after the other in one process,
    each by [construct (1)] and [set (0, 0, 5)].  Each gets its column
    index and value appended; the first gets [row_ptr[1] = 1]; the second,
    into which one entry was inserted as well, gets [row_ptr[1] = 2], an
    offset past the end of its [val], and reading its element [(0, 1)] runs
    out of bounds. *)
Theorem set_second_matrix_offset :
  let first := build process_start 1 one_entry in
  let second := build first.2.1 1 one_entry in
  first.1 = Ret tt /\ second.1 = Ret tt
  /\ col_ind second.2.2 = [0] /\ val second.2.2 = [5%float]
  /\ inserted_through 0 one_entry = 1
  /\ row_ptr first.2.2 = [0; 1]
  /\ row_ptr second.2.2 = [0; 2]
  /\ get (close second.2).2.2 0 1 = Fail Undefined.
Proof. by vm_compute. Qed.

(** C2.  On a matrix that satisfies the invariants of the data model,
    reading element [(i, j)] with [i < nrow] returns the value of the first
    stored entry of row [i], in storage order within
    [row_ptr[i] .. row_ptr[i+1]], whose column index is [j], and zero when
    the row stores no such entry.  Hence an entry that no earlier entry of
    its row shadows is read back with its own value (every entry, when the
    row stores no column twice), a position outside the pattern reads as
    zero, and of duplicates the first one is returned. *)
Theorem get_first_match {T : Type} `{Scalar T} (A : SparseMatrix T) (i j : Z) :
  valid_csr A = true -> 0 <= i < nrow A ->
  get A i j = Ret (default tzero (first_match j (row_entries A i)))
  /\ (forall pre v post,
        row_entries A i = pre ++ (j, v) :: post -> j ∉ pre.*1 ->
        get A i j = Ret v)
  /\ (j ∉ (row_entries A i).*1 -> get A i j = Ret tzero)
  /\ (NoDup (row_entries A i).*1 ->
      forall v, (j, v) ∈ row_entries A i -> get A i j = Ret v).
Proof.
  intros HA Hi. apply valid_csr_inv in HA.
  pose proof (get_Ret A i j HA Hi) as Hget. repeat split.
  - done.
  - intros pre v post Hrow Hpre. rewrite Hget, Hrow.
    by rewrite first_match_app.
  - intros Hnone. rewrite Hget. by rewrite first_match_None.
  - intros Hnd v Hv. rewrite Hget.
    by rewrite (first_match_NoDup j v).
Qed.

Lemma get_first_match_witness :
  valid_csr dup2 = true /\ 0 <= 0 < nrow dup2
  /\ get dup2 0 1 = Ret 5%float
  /\ get dup2 0 0 = Ret 2%float
  /\ get dup2 1 0 = Ret 0%float.
Proof.
  split; [reflexivity|]. split; [simpl; lia|].
  destruct (get_first_match dup2 0 1 eq_refl ltac:(simpl; lia)) as (_ & H1 & _).
  destruct (get_first_match dup2 0 0 eq_refl ltac:(simpl; lia)) as (_ & H2 & _).
  destruct (get_first_match dup2 1 0 eq_refl ltac:(simpl; lia)) as (_ & _ & H3 & _).
  split; [|split].
  - apply (H1 [] 5%float [(0, 2%float); (1, 7%float)]); [reflexivity|].
    apply not_elem_of_nil.
  - apply (H2 [(1, 5%float)] 2%float [(1, 7%float)]); [reflexivity|].
    intros Hin. apply list_elem_of_singleton in Hin. discriminate.
  - apply H3. intros Hin. apply list_elem_of_singleton in Hin. discriminate.
Defined.

(** C3.  On a valid matrix and vectors [x], [y] of length [nrow],
    [multiply (x, y, scalar)] succeeds and leaves in every component [y[i]]
    the sum over the stored entries of row [i] of [val * x[col]], taken in
    storage order from zero, times [scalar] (the sum is the left factor, as
    in [y(i) *= scalar]; it is [scalar] times the sum where multiplication
    commutes).  The result has length [nrow] and does not depend on what [y]
    held before; [x] is passed by const reference and only read. *)
Theorem multiply_scaled_product {T : Type} `{Scalar T}
    (A : SparseMatrix T) (x y : Vector) (scalar : T) :
  valid_csr A = true -> size x = nrow A -> size y = nrow A ->
  multiply A x y scalar = Ret (scaled_product A x scalar)
  /\ size (scaled_product A x scalar) = nrow A
  /\ (forall i, 0 <= i < nrow A ->
       sel tzero (scaled_product A x scalar) i = tmul (row_dot A x i) scalar)
  /\ (ring_laws -> forall i, 0 <= i < nrow A ->
       sel tzero (scaled_product A x scalar) i = tmul scalar (row_dot A x i))
  /\ (forall y' : Vector, size y' = nrow A ->
       multiply A x y' scalar = multiply A x y scalar).
Proof.
  intros HA Hx Hy. apply valid_csr_inv in HA.
  pose proof (inv_nrow A HA) as Hn.
  assert (forall i, 0 <= i < nrow A ->
            sel tzero (scaled_product A x scalar) i
            = tmul (row_dot A x i) scalar) as Hsel.
  { intros i Hi. unfold scaled_product.
    by rewrite (sel_fmap_range (fun i => tmul (row_dot A x i) scalar)). }
  repeat split.
  - by apply multiply_Ret.
  - unfold size, scaled_product, range. rewrite length_fmap, length_seqZ. lia.
  - done.
  - intros L i Hi. rewrite Hsel by done. apply (mul_comm L).
  - intros y' Hy'. by rewrite !multiply_Ret.
Qed.

Lemma multiply_scaled_product_witness :
  valid_csr identity3 = true
  /\ size [2%float; 3%float; 4%float] = nrow identity3
  /\ size [9%float; 9%float; 9%float] = nrow identity3
  /\ multiply identity3 [2%float; 3%float; 4%float]
       [9%float; 9%float; 9%float] 1%float
     = Ret [2%float; 3%float; 4%float]
  /\ sel tzero (scaled_product sym2 [int32_of 1; int32_of 2] (int32_of 3)) 1
     = tmul (int32_of 3) (row_dot sym2 [int32_of 1; int32_of 2] 1).
Proof.
  split; [reflexivity|]. split; [reflexivity|]. split; [reflexivity|]. split.
  - exact (proj1 (multiply_scaled_product identity3
                    [2%float; 3%float; 4%float]
                    [9%float; 9%float; 9%float] 1%float
                    eq_refl eq_refl eq_refl)).
  - destruct (multiply_scaled_product sym2 [int32_of 1; int32_of 2]
                [int32_of 0; int32_of 0] (int32_of 3)
                eq_refl eq_refl eq_refl) as (_ & _ & _ & Hcomm & _).
    apply (Hcomm int32_ring_laws). simpl. lia.
Defined.

(** C4.  Let a matrix be built by [construct (n)] and row-ascending calls of
    [set], in a process whose counter does not wrap during them.  Then
    [close ()] succeeds and leaves the matrix [CLOSED]; for every row [k]
    without an inserted entry it sets [row_ptr[k+1]] to [row_ptr[k]]; it
    prints the warning once for each of these rows, in ascending order, and
    nothing else; the offsets of the rows that have an entry, the stored
    entries and the counter are as before. *)
Theorem close_empty_rows {T : Type} `{Scalar T}
    (p : process) (n : Z) (es : list (@entry T)) :
  0 <= count p -> count p + Z.of_nat (length es) < UINT_MOD ->
  0 < n < UINT_MOD - 1 -> protocol n es = true ->
  exists s s' : @St T,
    build p n es = (Ret tt, s) /\ state s.2 = OPEN
    /\ close s = (Ret tt, s')
    /\ state s'.2 = CLOSED
    /\ (forall k, 0 <= k < n -> inserted_in k es = 0 ->
          sel 0 (row_ptr s'.2) (k + 1) = sel 0 (row_ptr s'.2) k)
    /\ cout s'.1 = cout p ++ ((fun k => RowEmpty (k + 1)) <$> empty_rows n es)
    /\ (forall k, 0 <= k < n -> inserted_in k es <> 0 ->
          sel 0 (row_ptr s'.2) (k + 1) = sel 0 (row_ptr s.2) (k + 1))
    /\ nrow s'.2 = nrow s.2 /\ col_ind s'.2 = col_ind s.2
    /\ val s'.2 = val s.2 /\ count s'.1 = count s.1
    /\ length (row_ptr s'.2) = length (row_ptr s.2).
Proof.
  intros Hc Hmax Hn Hp.
  destruct (build_built p n es ltac:(lia) Hn Hp) as (s & Hbuild & Hb).
  destruct (built_row_ptr _ _ _ _ _ Hb) as (l & Hrp & Hl & Hl_rows).
  destruct Hb as [_ Hout Hnrow Hst _ _ _ _ _].
  exists s, (closed_state (0 :: fill 0 l) (warnings 1 l) CLOSED s).
  split; [done|]. split; [done|]. split.
  { apply close_Ret; [lia|done|lia]. }
  simpl. repeat split; try done.
  - intros k Hk Hempty. unfold sel.
    replace (Z.to_nat (k + 1)) with (S (Z.to_nat k)) by lia. simpl.
    rewrite fill_zero; [done|].
    rewrite Hl_rows by done. f_equal. unfold offset. by rewrite decide_True.
  - rewrite Hout. f_equal. change 1 with (0 + 1).
    rewrite (warnings_filter (fun k => inserted_in k es = 0) l 0).
    + unfold empty_rows, range. by rewrite Hl, Z.sub_0_r.
    + intros k Hk. rewrite Z.add_0_l.
      specialize (Hl_rows (Z.of_nat k) ltac:(lia)).
      rewrite Nat2Z.id in Hl_rows. rewrite Hl_rows.
      rewrite <- (offset_zero_iff (count p) (Z.of_nat k) es Hc Hmax).
      split; [by intros [= ->]|by intros ->].
  - intros k Hk Hfull. unfold sel.
    replace (Z.to_nat (k + 1)) with (S (Z.to_nat k)) by lia. simpl.
    rewrite (fill_nonzero l 0 _ _ (Hl_rows k Hk)).
    + rewrite Hrp. simpl. by rewrite Hl_rows.
    + by rewrite (offset_zero_iff (count p) k es Hc Hmax).
  - rewrite Hrp. simpl. by rewrite fill_length.
Qed.

Lemma close_empty_rows_witness :
  0 <= count process_start
  /\ count process_start + Z.of_nat (length gap3_entries) < UINT_MOD
  /\ 0 < 3 < UINT_MOD - 1 /\ protocol 3 gap3_entries = true
  /\ exists s' : @St float,
       close (build process_start 3 gap3_entries).2 = (Ret tt, s')
       /\ state s'.2 = CLOSED /\ cout s'.1 = [RowEmpty 2]
       /\ sel 0 (row_ptr s'.2) 2 = sel 0 (row_ptr s'.2) 1.
Proof.
  split; [simpl; lia|]. split; [by vm_compute|].
  split; [by vm_compute|]. split; [reflexivity|].
  destruct (close_empty_rows process_start 3 gap3_entries
              ltac:(simpl; lia) ltac:(by vm_compute) ltac:(by vm_compute)
              eq_refl)
    as (s & s' & Hbuild & _ & Hclose & Hst & Hempty & Hout & _).
  exists s'. rewrite Hbuild. split; [exact Hclose|]. split; [exact Hst|].
  split; [exact Hout|]. apply (Hempty 1); [lia|reflexivity].
Defined.

(** C5.  [diag (i)] reads [val[row_ptr[i]]] without any search: on a valid
    matrix it returns the value of the first stored entry of row [i], which
    is the element [A(i,i)] when that entry has column [i]; on the matrix
    [dup2], whose row 0 stores its diagonal entry second, [diag (0)] is 5
    while [A(0,0)] is 2. *)
Theorem diag_first_entry :
  (forall (T : Type) (S : Scalar T) (A : SparseMatrix T) (i : Z),
     valid_csr A = true -> 0 <= i < nrow A ->
     diag A i = load (val A) (sel 0 (row_ptr A) i)
     /\ forall e es, row_entries A i = e :: es ->
          diag A i = Ret e.2 /\ (e.1 = i -> get A i i = Ret e.2))
  /\ (valid_csr dup2 = true
      /\ diag dup2 0 = Ret 5%float /\ get dup2 0 0 = Ret 2%float).
Proof.
  split; [|by vm_compute].
  intros T S A i HA Hi. apply valid_csr_inv in HA. split.
  { unfold diag. by rewrite (load_row_beg A i). }
  intros e es Hrow.
  assert (sel 0 (row_ptr A) i < sel 0 (row_ptr A) (i + 1)) as Hlt.
  { destruct (decide (sel 0 (row_ptr A) i < sel 0 (row_ptr A) (i + 1)));
      [done|].
    unfold row_entries, range in Hrow. by rewrite seqZ_nil in Hrow by lia. }
  assert (e.2 = first_value A i) as He.
  { unfold row_entries, range in Hrow. rewrite seqZ_cons in Hrow by lia.
    simpl in Hrow. by injection Hrow as <- _. }
  pose proof (row_bounds A i HA Hi). split.
  - rewrite He. apply diag_Ret; [done|done|lia].
  - intros Hcol. rewrite (get_Ret A i i HA Hi), Hrow. simpl.
    by rewrite decide_True.
Qed.

Lemma diag_first_entry_witness :
  valid_csr sym2 = true /\ 0 <= 1 < nrow sym2
  /\ diag sym2 1 = Ret (int32_of 3) /\ get sym2 1 1 = Ret (int32_of 3).
Proof.
  split; [reflexivity|]. split; [simpl; lia|].
  destruct (proj1 diag_first_entry int32 _ sym2 1 eq_refl ltac:(simpl; lia))
    as [_ Hrow].
  destruct (Hrow (1, int32_of 3) [(0, int32_of 1)] eq_refl) as [Hd Hg].
  split; [exact Hd|exact (Hg eq_refl)].
Defined.

(** C6.  On a valid matrix, the non-const [operator() (i, j)] with
    [i < nrow] returns a reference to the first stored entry of row [i]
    whose column is [j], when there is one: the matrix and the process are
    left as they were, and assigning through the reference changes that
    value only, so that [(i, j)] then reads as the value assigned.  When row
    [i] stores no entry of column [j], it prints its message and aborts,
    with the matrix unchanged: no entry is inserted. *)
Theorem get_mut_pattern {T : Type} `{Scalar T}
    (p : process) (A : SparseMatrix T) (i j : Z) :
  valid_csr A = true -> 0 <= i < nrow A ->
  (forall pre v post,
     row_entries A i = pre ++ (j, v) :: post -> j ∉ pre.*1 ->
     exists d before after,
       get_mut i j (p, A) = (Ret d, (p, A))
       /\ range (sel 0 (row_ptr A) i) (sel 0 (row_ptr A) (i + 1))
          = before ++ d :: after
       /\ (forall d', d' ∈ before -> sel 0 (col_ind A) d' <> j)
       /\ stored A d = (j, v)
       /\ forall a, exists A',
            assign d a A = Ret A' /\ get A' i j = Ret a
            /\ nrow A' = nrow A /\ row_ptr A' = row_ptr A
            /\ col_ind A' = col_ind A
            /\ length (val A') = length (val A))
  /\ (j ∉ (row_entries A i).*1 ->
      get_mut i j (p, A)
      = (Fail Abort,
         ({| count := count p; cout := cout p ++ [NoElement i j] |}, A))).
Proof.
  intros HA Hi. apply valid_csr_inv in HA.
  pose proof (get_mut_head p A i j HA Hi) as Hmut. split.
  - intros pre v post Hrow Hpre.
    pose proof (first_match_app j pre v post Hpre) as Hfm.
    rewrite <- Hrow in Hfm. unfold row_entries in Hfm.
    rewrite first_match_head in Hfm.
    destruct (head _) as [d|] eqn:Hd; [|done].
    simpl in Hfm. injection Hfm as Hv.
    destruct (head_filter_split _ _ _ Hd) as (before & after & Hsplit & Hcol & Hbefore).
    exists d, before, after. repeat split; try done.
    + unfold stored. by rewrite Hcol, Hv.
    + intros a. by apply assign_get.
  - intros Hnone. apply first_match_None in Hnone.
    unfold row_entries in Hnone. rewrite first_match_head in Hnone.
    destruct (head _) as [d|] eqn:Hd; [done|]. done.
Qed.

Lemma get_mut_pattern_witness :
  valid_csr dup2 = true /\ 0 <= 0 < nrow dup2
  /\ get_mut 0 1 (process_start, dup2) = (Ret 0, (process_start, dup2))
  /\ get_mut 1 0 (process_start, dup2)
     = (Fail Abort, ({| count := 0; cout := [NoElement 1 0] |}, dup2)).
Proof.
  split; [reflexivity|]. split; [simpl; lia|]. split.
  - assert (row_entries dup2 0
            = [] ++ (1, 5%float) :: [(0, 2%float); (1, 7%float)]) as Hrow
      by (vm_compute; reflexivity).
    destruct (proj1 (get_mut_pattern process_start dup2 0 1 eq_refl
                       ltac:(simpl; lia))
                [] 5%float [(0, 2%float); (1, 7%float)] Hrow
                ltac:(apply not_elem_of_nil))
      as (d & before & after & Hmut & Hsplit & Hbefore & _).
    rewrite Hmut. destruct before as [|d' before].
    + injection Hsplit as <- _. reflexivity.
    + injection Hsplit as <- _.
      destruct (Hbefore 0 ltac:(left)). reflexivity.
  - apply (proj2 (get_mut_pattern process_start dup2 1 0 eq_refl
                    ltac:(simpl; lia))).
    intros Hin. apply list_elem_of_singleton in Hin. discriminate.
Defined.

(** C7.  On a valid matrix whose [diag (i)] may be divided by, and vectors
    [x], [rhs] of length [nrow], [Jacobi_step (x, rhs)] succeeds; with [r]
    the residual of the [x] it was given ([-1] times the row sum plus
    [rhs[i]], which is [rhs[i]] minus the row sum under the ring laws) it
    leaves [x[i] + r[i] / diag (i)] in every component of [x] and returns
    the square root of the sum of the [r[i] * r[i]]; [rhs] is passed by
    const reference and only read.  On the 3x3 identity pattern built by
    the protocol, in [double], from [x = [0,0,0]] and [rhs = [2,3,4]] the
    step gives [x = [2,3,4]] and returns the square root of 29. *)
Theorem Jacobi_step_update :
  (forall (T : Type) (S : Scalar T) (A : SparseMatrix T) (x rhs : Vector),
     valid_csr A = true -> diag_nonzero A = true ->
     size x = nrow A -> size rhs = nrow A ->
     Jacobi_step A x rhs = Ret (jacobi_update (residual_neg A rhs) A x)
     /\ (ring_laws ->
         Jacobi_step A x rhs = Ret (jacobi_update (residual A rhs) A x)))
  /\ (close (build process_start 3 identity3_entries).2
      = (Ret tt, ({| count := 3; cout := [] |}, identity3))
      /\ Jacobi_step identity3 [0%float; 0%float; 0%float]
           [2%float; 3%float; 4%float]
         = Ret ([2%float; 3%float; 4%float], PrimFloat.sqrt 29%float)).
Proof.
  split; [|by vm_compute].
  intros T S A x rhs HA Hd Hx Hrhs. apply valid_csr_inv in HA.
  pose proof (Jacobi_step_Ret A x rhs HA Hd Hx Hrhs) as Hstep.
  split; [done|].
  intros L. rewrite Hstep. f_equal. apply jacobi_update_ext.
  intros x' i. by apply residual_neg_eq.
Qed.

Lemma Jacobi_step_update_witness :
  valid_csr sym2 = true /\ diag_nonzero sym2 = true
  /\ size [int32_of 0; int32_of 0] = nrow sym2
  /\ size [int32_of 7; int32_of 9] = nrow sym2
  /\ Jacobi_step sym2 [int32_of 0; int32_of 0] [int32_of 7; int32_of 9]
     = Ret (jacobi_update (residual sym2 [int32_of 7; int32_of 9]) sym2
              [int32_of 0; int32_of 0])
  /\ proj1_sig <$> (jacobi_update (residual sym2 [int32_of 7; int32_of 9])
                      sym2 [int32_of 0; int32_of 0]).1 = [3; 3]
  /\ proj1_sig (jacobi_update (residual sym2 [int32_of 7; int32_of 9])
                  sym2 [int32_of 0; int32_of 0]).2 = 11.
Proof.
  split; [reflexivity|]. split; [vm_compute; reflexivity|].
  split; [reflexivity|]. split; [reflexivity|].
  split; [|by vm_compute].
  exact (proj2 (proj1 Jacobi_step_update int32 _ sym2
                  [int32_of 0; int32_of 0] [int32_of 7; int32_of 9]
                  eq_refl eq_refl eq_refl eq_refl)
               int32_ring_laws).
Defined.

(** C8.  On a valid matrix whose [diag (i)] may be divided by, and vectors
    [x], [rhs] of length [nrow], [SOR_step (x, rhs, omg)] succeeds and is
    the fold over the rows [0 .. nrow-1], in ascending order, of the row
    update: [r] is [rhs[i]] less the products [val * x[col]] of the stored
    entries of row [i], taken off one after the other from the current [x]
    (which is [rhs[i]] minus their sum under the ring laws), then
    [x[i] += omg * r / diag (i)] and [res += r * r]; the square root of
    [res] is returned.  It is not the norm of a residual recomputed after
    the sweep: on [sym2] with [x = [0,0]], [rhs = [7,9]], [omg = 1] the step
    gives [x = [3,2]] and returns 9, while the residual of [[3,2]] has
    norm 1. *)
Theorem SOR_step_sweep :
  (forall (T : Type) (S : Scalar T) (A : SparseMatrix T) (x rhs : Vector)
          (omg : T),
     valid_csr A = true -> diag_nonzero A = true ->
     size x = nrow A -> size rhs = nrow A ->
     SOR_step A x rhs omg
     = Ret (let s := sweep_rows (residual_seq A rhs) A omg
                       (range 0 (nrow A)) x in
            (s.1, tsqrt s.2))
     /\ (ring_laws ->
         SOR_step A x rhs omg
         = Ret (let s := sweep_rows (residual A rhs) A omg
                           (range 0 (nrow A)) x in
                (s.1, tsqrt s.2))))
  /\ (exists x' n,
        SOR_step sym2 [int32_of 0; int32_of 0] [int32_of 7; int32_of 9]
          (int32_of 1) = Ret (x', n)
        /\ proj1_sig <$> x' = [3; 2] /\ proj1_sig n = 9
        /\ proj1_sig (tsqrt (sum_squares
                               (residual sym2 [int32_of 7; int32_of 9] x'
                                  <$> range 0 (nrow sym2)))) = 1).
Proof.
  split.
  - intros T S A x rhs omg HA Hd Hx Hrhs. apply valid_csr_inv in HA.
    pose proof (SOR_step_Ret A x rhs omg HA Hd Hx Hrhs) as Hstep.
    split; [done|].
    intros L. rewrite Hstep. cbv zeta.
    rewrite (sweep_rows_ext (residual_seq A rhs) (residual A rhs)); [done|].
    intros x' i. by apply residual_seq_eq.
  - eexists _, _. split.
    + apply SOR_step_Ret; [by apply valid_csr_inv|by vm_compute|done|done].
    + by vm_compute.
Qed.

Lemma SOR_step_sweep_witness :
  valid_csr sym2 = true /\ diag_nonzero sym2 = true
  /\ size [int32_of 0; int32_of 0] = nrow sym2
  /\ size [int32_of 7; int32_of 9] = nrow sym2
  /\ SOR_step sym2 [int32_of 0; int32_of 0] [int32_of 7; int32_of 9]
       (int32_of 1)
     = Ret (let s := sweep_rows (residual sym2 [int32_of 7; int32_of 9]) sym2
                       (int32_of 1) (range 0 (nrow sym2))
                       [int32_of 0; int32_of 0] in
            (s.1, tsqrt s.2)).
Proof.
  split; [reflexivity|]. split; [vm_compute; reflexivity|].
  split; [reflexivity|]. split; [reflexivity|].
  exact (proj2 (proj1 SOR_step_sweep int32 _ sym2
                  [int32_of 0; int32_of 0] [int32_of 7; int32_of 9]
                  (int32_of 1) eq_refl eq_refl eq_refl eq_refl)
               int32_ring_laws).
Defined.

(** C9.  On a valid matrix whose [diag (i)] may be divided by and whose
    number of rows fits the [int] that counts the backward loop, and
    vectors [x], [rhs] of length [nrow], [SSOR_step (x, rhs, omg)] succeeds:
    it sweeps the rows in ascending order with the row update of
    [SOR_step], keeping [x] only, then sweeps them in descending order
    from that [x] with the same update, and returns the square root of the
    [res] accumulated by the backward sweep alone. *)
Theorem SSOR_step_two_sweeps {T : Type} `{Scalar T}
    (A : SparseMatrix T) (x rhs : Vector) (omg : T) :
  valid_csr A = true -> diag_nonzero A = true ->
  size x = nrow A -> size rhs = nrow A -> nrow A <= INT_MAX ->
  SSOR_step A x rhs omg
  = Ret (let x1 := (sweep_rows (residual_seq A rhs) A omg
                      (range 0 (nrow A)) x).1 in
         let s := sweep_rows (residual_seq A rhs) A omg
                    (reverse (range 0 (nrow A))) x1 in
         (s.1, tsqrt s.2))
  /\ (ring_laws ->
      SSOR_step A x rhs omg
      = Ret (let x1 := (sweep_rows (residual A rhs) A omg
                          (range 0 (nrow A)) x).1 in
             let s := sweep_rows (residual A rhs) A omg
                        (reverse (range 0 (nrow A))) x1 in
             (s.1, tsqrt s.2))).
Proof.
  intros HA Hd Hx Hrhs Hmax. apply valid_csr_inv in HA.
  pose proof (SSOR_step_Ret A x rhs omg HA Hd Hx Hrhs Hmax) as Hstep.
  split; [done|].
  intros L. rewrite Hstep. cbv zeta.
  assert (forall x' i, residual_seq A rhs x' i = residual A rhs x' i) as Hr
    by (intros x' i; by apply residual_seq_eq).
  rewrite (sweep_rows_ext _ _ A omg (range 0 (nrow A)) x Hr).
  by rewrite (sweep_rows_ext _ _ A omg (reverse (range 0 (nrow A))) _ Hr).
Qed.

Lemma SSOR_step_two_sweeps_witness :
  valid_csr sym2 = true /\ diag_nonzero sym2 = true
  /\ size [int32_of 0; int32_of 0] = nrow sym2
  /\ size [int32_of 7; int32_of 9] = nrow sym2
  /\ nrow sym2 <= INT_MAX
  /\ exists x' n,
       SSOR_step sym2 [int32_of 0; int32_of 0] [int32_of 7; int32_of 9]
         (int32_of 1) = Ret (x', n)
       /\ proj1_sig <$> x' = [3; 2] /\ proj1_sig n = 1.
Proof.
  split; [reflexivity|]. split; [vm_compute; reflexivity|].
  split; [reflexivity|]. split; [reflexivity|].
  split; [vm_compute; discriminate|].
  eexists _, _. split.
  - exact (proj2 (SSOR_step_two_sweeps sym2
                    [int32_of 0; int32_of 0] [int32_of 7; int32_of 9]
                    (int32_of 1) eq_refl eq_refl eq_refl eq_refl
                    ltac:(vm_compute; discriminate))
                 int32_ring_laws).
  - by vm_compute.
Defined.

(** C10.  The counter of [set] is shared by the matrices of one element
    type.  Build a matrix in a fresh process, then a second one, both by
    the protocol: the first matrix gets, for every row with an entry, the
    number of entries inserted into it through that row, which is also what
    the second matrix gets when it is built alone in a fresh process; built
    after the first, its offsets start from the number of entries of the
    first matrix (modulo [2^32]).  When the counter does not wrap and the
    first matrix has an entry, every such offset of the second matrix
    differs from what the run on its own gives. *)
Theorem set_counter_shared {T : Type} `{Scalar T}
    (n1 n2 : Z) (es1 es2 : list (@entry T)) :
  0 < n1 < UINT_MOD - 1 -> 0 < n2 < UINT_MOD - 1 ->
  protocol n1 es1 = true -> protocol n2 es2 = true ->
  exists s1 s2 s2' : @St T,
    build process_start n1 es1 = (Ret tt, s1)
    /\ build s1.1 n2 es2 = (Ret tt, s2)
    /\ build process_start n2 es2 = (Ret tt, s2')
    /\ count s1.1 = u32 (Z.of_nat (length es1))
    /\ (forall k, 0 <= k < n1 ->
          sel 0 (row_ptr s1.2) (k + 1) = offset 0 k es1)
    /\ (forall k, 0 <= k < n2 ->
          sel 0 (row_ptr s2'.2) (k + 1) = offset 0 k es2
          /\ sel 0 (row_ptr s2.2) (k + 1)
             = offset (u32 (Z.of_nat (length es1))) k es2)
    /\ (Z.of_nat (length es1) + Z.of_nat (length es2) < UINT_MOD ->
        forall k, 0 <= k < n2 -> inserted_in k es2 <> 0 ->
          sel 0 (row_ptr s2'.2) (k + 1) = inserted_through k es2
          /\ sel 0 (row_ptr s2.2) (k + 1)
             = Z.of_nat (length es1) + inserted_through k es2).
Proof.
  intros Hn1 Hn2 Hp1 Hp2.
  destruct (build_built process_start n1 es1 ltac:(by vm_compute) Hn1 Hp1)
    as (s1 & Hs1 & Hb1).
  pose proof (u32_range (Z.of_nat (length es1))) as Hcount.
  assert (count s1.1 = u32 (Z.of_nat (length es1))) as Hc1.
  { rewrite (b_count _ _ _ _ _ Hb1). simpl. done. }
  destruct (build_built s1.1 n2 es2 ltac:(by rewrite Hc1) Hn2 Hp2)
    as (s2 & Hs2 & Hb2).
  destruct (build_built process_start n2 es2 ltac:(by vm_compute) Hn2 Hp2)
    as (s2' & Hs2' & Hb2').
  exists s1, s2, s2'. repeat split; try done.
  - intros k Hk. apply sel_lookup. apply (b_rows _ _ _ _ _ Hb1 k Hk).
  - apply sel_lookup. apply (b_rows _ _ _ _ _ Hb2' k ltac:(done)).
  - apply sel_lookup. rewrite <- Hc1. apply (b_rows _ _ _ _ _ Hb2 k ltac:(done)).
  - rewrite (sel_lookup _ _ _ _ (b_rows _ _ _ _ _ Hb2' k ltac:(done))).
    simpl. rewrite offset_nowrap by (done || lia). lia.
  - rewrite (sel_lookup _ _ _ _ (b_rows _ _ _ _ _ Hb2 k ltac:(done))).
    rewrite Hc1. rewrite (u32_small (Z.of_nat (length es1))) by lia.
    by rewrite offset_nowrap by (done || lia).
Qed.

Lemma set_counter_shared_witness :
  0 < 1 < UINT_MOD - 1 /\ protocol 1 one_entry = true
  /\ exists s1 s2 s2' : @St float,
       build process_start 1 one_entry = (Ret tt, s1)
       /\ build s1.1 1 one_entry = (Ret tt, s2)
       /\ build process_start 1 one_entry = (Ret tt, s2')
       /\ sel 0 (row_ptr s2'.2) 1 = 1 /\ sel 0 (row_ptr s2.2) 1 = 2.
Proof.
  split; [by vm_compute|]. split; [reflexivity|].
  destruct (set_counter_shared 1 1 one_entry one_entry
              ltac:(by vm_compute) ltac:(by vm_compute) eq_refl eq_refl)
    as (s1 & s2 & s2' & H1 & H2 & H2' & _ & _ & _ & Hshift).
  exists s1, s2, s2'. split; [exact H1|]. split; [exact H2|].
  split; [exact H2'|].
  exact (Hshift ltac:(by vm_compute) 0 ltac:(lia) ltac:(by vm_compute)).
Defined.

(** * Further properties of the code *)

Lemma load_out_of_bounds {A} (v : list A) i :
  i < 0 \/ Z.of_nat (length v) <= i -> load v i = Fail Undefined.
Proof.
  intros Hi. unfold load. case_decide; [|done].
  rewrite lookup_ge_None_2; [done|lia].
Qed.

Lemma load_Fail {A} (v : list A) i e : load v i = Fail e -> e = Undefined.
Proof.
  unfold load. case_decide; [|by intros [= <-]].
  destruct (v !! Z.to_nat i); [done|by intros [= <-]].
Qed.

Lemma forallb_false_elem {A} (f : A -> bool) (l : list A) :
  forallb f l = false -> exists a, a ∈ l /\ f a = false.
Proof.
  induction l as [|a l IH]; [done|]. simpl.
  destruct (f a) eqn:Ha.
  - intros Hl. destruct (IH Hl) as (b & Hb & Hfb). exists b. split; [by right|done].
  - intros _. exists a. split; [left|done].
Qed.

(** A loop fails when its body fails at some index and behaves as a step
    function before. *)
Lemma for_each_Fail {S} (Inv : S -> Prop) (step : S -> Z -> S) e ks body
    (s : S) :
  (forall k s', k ∈ ks -> Inv s' ->
     (body k s' = Ret (step s' k) /\ Inv (step s' k)) \/ body k s' = Fail e) ->
  (exists k, k ∈ ks /\ forall s', Inv s' -> body k s' = Fail e) ->
  Inv s ->
  for_each ks body s = Fail e.
Proof.
  revert s. induction ks as [|k ks IH]; intros s Hbody [k' [Hk' Hfail]] Hs.
  { by apply elem_of_nil in Hk'. }
  simpl. destruct (Hbody k s ltac:(left) Hs) as [[Hret Hs']|Hf].
  - rewrite Hret. simpl. apply IH; [| |done].
    + intros k0 s0 Hk0. apply Hbody. by right.
    + apply elem_of_cons in Hk' as [->|Hk'].
      * rewrite (Hfail s Hs) in Hret. discriminate.
      * by exists k'.
  - by rewrite Hf.
Qed.

Section Checks.
Context {T : Type} `{Scalar T}.

Local Abbreviation matrix := (SparseMatrix T).
Local Abbreviation St := (@St T).

Lemma csr_accepted_Ret rp ci (v : list T) st :
  csr_accepted rp ci v ->
  SparseMatrix_csr rp ci v st
  = Ret {| nrow := u32 (Z.of_nat (length rp) - 1); row_ptr := rp;
           col_ind := ci; val := v; state := st |}.
Proof.
  intros (H2 & H0 & Hcv & Hlast & Hcols). unfold SparseMatrix_csr.
  rewrite !bool_decide_eq_true_2 by done. simpl.
  unfold load. rewrite decide_True by apply u32_range. rewrite Hlast. simpl.
  rewrite bool_decide_eq_true_2 by done. simpl.
  assert (forallb (fun c => bool_decide
             (0 <= c < u32 (Z.of_nat (length rp) - 1))) ci = true) as ->; [|done].
  apply forallb_forall. intros c Hc. apply bool_decide_eq_true.
  rewrite Forall_forall in Hcols. apply Hcols. by apply list_elem_of_In.
Qed.

Lemma csr_cases rp ci (v : list T) st :
  (csr_accepted rp ci v
   /\ SparseMatrix_csr rp ci v st
      = Ret {| nrow := u32 (Z.of_nat (length rp) - 1); row_ptr := rp;
               col_ind := ci; val := v; state := st |})
  \/ (~ csr_accepted rp ci v
      /\ SparseMatrix_csr rp ci v st = Fail AssertFail).
Proof.
  unfold csr_accepted, SparseMatrix_csr. cbv zeta.
  destruct (bool_decide (2 <= Z.of_nat (length rp))) eqn:H2.
  2:{ right. apply bool_decide_eq_false in H2. split; [tauto|done]. }
  destruct (bool_decide (0 < Z.of_nat (length ci))) eqn:H0.
  2:{ right. apply bool_decide_eq_false in H0. split; [tauto|done]. }
  destruct (bool_decide (length ci = length v)) eqn:Hcv.
  2:{ right. apply bool_decide_eq_false in Hcv. split; [tauto|done]. }
  apply bool_decide_eq_true in H2, H0, Hcv. simpl.
  pose proof (u32_range (Z.of_nat (length rp) - 1)) as Hn.
  assert (u32 (Z.of_nat (length rp) - 1) <= Z.of_nat (length rp) - 1) as Hle.
  { unfold u32, UINT_MOD. apply Z.mod_le; lia. }
  rewrite (load_Ret 0) by lia. simpl.
  rewrite (lookup_sel 0) by lia.
  destruct (bool_decide (sel 0 rp _ = Z.of_nat (length v))) eqn:Hlast.
  2:{ right. apply bool_decide_eq_false in Hlast. split; [|done].
      intros (_ & _ & _ & [= Heq] & _). done. }
  apply bool_decide_eq_true in Hlast. simpl.
  destruct (forallb _ ci) eqn:Hcols.
  - left. split; [|done]. repeat split; try done; [by rewrite Hlast|].
    apply Forall_forall. intros c Hc. rewrite forallb_forall in Hcols.
    apply list_elem_of_In in Hc. apply Hcols in Hc.
    by apply bool_decide_eq_true in Hc.
  - right. split; [|done]. intros (_ & _ & _ & _ & Hall).
    apply forallb_false_elem in Hcols as (c & Hc & Hfalse).
    apply bool_decide_eq_false in Hfalse. apply Hfalse.
    rewrite Forall_forall in Hall. by apply Hall.
Qed.

Lemma set_rejected (p : process) (A : matrix) i j (v : T) :
  state A <> OPEN \/ ~ 0 <= i < nrow A \/ ~ 0 <= j < nrow A ->
  set i j v (p, A) = (Fail AssertFail, (p, A)).
Proof.
  intros Hbad. unfold set, mbind, M_bind, gets, lift. simpl.
  destruct (bool_decide (state A = OPEN)) eqn:Hst; [|done]. simpl.
  destruct (bool_decide (0 <= i < nrow A)) eqn:Hi; [|done]. simpl.
  destruct (bool_decide (0 <= j < nrow A)) eqn:Hj; [|done].
  apply bool_decide_eq_true in Hst, Hi, Hj. by destruct Hbad as [?|[?|?]].
Qed.

Lemma close_state (s s' : St) :
  close s = (Ret tt, s') -> state s'.2 = CLOSED.
Proof.
  unfold close, mbind, M_bind, gets, modify. simpl.
  destruct (for_eachM _ close_row s) as [[[]|e] s1]; [|done].
  by intros [= <-].
Qed.

Lemma fill_fill prev l : fill prev (fill prev l) = fill prev l.
Proof.
  revert prev. induction l as [|a l IH]; intros prev; [done|].
  simpl. destruct (decide (a = 0)) as [->|Ha].
  - destruct (decide (prev = 0)) as [->|Hp]; by rewrite IH.
  - rewrite decide_False by done. by rewrite IH.
Qed.

End Checks.

(** X1.  The constructor from a triple returns exactly when [row_ptr] has at
    least two elements, [col_ind] is not empty and has as many elements as
    [val], [row_ptr[nrow]] is that number and every column index is below
    [nrow], where [nrow] is [row_ptr.size () - 1]; it then holds the three
    sequences as given.  Otherwise an assertion fails: [row_ptr[nrow]] is
    read within bounds whatever the arguments. *)
Theorem SparseMatrix_csr_checks {T : Type} `{Scalar T}
    (rp ci : list Z) (v : list T) (st : State) :
  (forall A, SparseMatrix_csr rp ci v st = Ret A <->
     csr_accepted rp ci v
     /\ A = {| nrow := u32 (Z.of_nat (length rp) - 1); row_ptr := rp;
               col_ind := ci; val := v; state := st |})
  /\ (forall e, SparseMatrix_csr rp ci v st = Fail e ->
        e = AssertFail /\ ~ csr_accepted rp ci v).
Proof.
  destruct (csr_cases rp ci v st) as [[Hyes Hret]|[Hno Hfail]].
  - split.
    + intros A. rewrite Hret. split.
      * by intros [= <-].
      * by intros [_ ->].
    + intros e. by rewrite Hret.
  - split.
    + intros A. rewrite Hfail. split; [done|]. by intros [? _].
    + intros e. rewrite Hfail. by intros [= <-].
Qed.

(** X2.  The order of [row_ptr] and its first element are what the
    constructor from a triple leaves unchecked: a matrix it returns
    satisfies the invariants of the data model exactly when [row_ptr] has at
    most [2^32] elements, does not decrease and starts at zero. *)
Theorem SparseMatrix_csr_unchecked {T : Type} `{Scalar T}
    (rp ci : list Z) (v : list T) (st : State) (A : SparseMatrix T) :
  SparseMatrix_csr rp ci v st = Ret A ->
  valid_csr A = true <->
  Z.of_nat (length rp) <= UINT_MOD /\ nondecreasing rp = true /\ sel 0 rp 0 = 0.
Proof.
  intros Hret. split.
  - intros HA. apply valid_csr_inv in HA.
    destruct (csr_cases rp ci v st) as [[_ Hret']|[_ Hfail]];
      [|by rewrite Hfail in Hret].
    rewrite Hret' in Hret. injection Hret as <-.
    destruct HA as [Hn Hlen Hfirst Hmono _ _ _]. simpl in *.
    repeat split; [lia|done|done].
  - intros (Hlen & Hmono & Hfirst).
    by destruct (SparseMatrix_csr_valid rp ci v st A Hret Hlen Hmono Hfirst).
Qed.

Lemma SparseMatrix_csr_unchecked_witness :
  SparseMatrix_csr [0; 3; 4] [1; 0; 1; 1]
    [5%float; 2%float; 7%float; 1%float] CLOSED = Ret dup2
  /\ (valid_csr dup2 = true <->
      Z.of_nat (length [0; 3; 4]) <= UINT_MOD
      /\ nondecreasing [0; 3; 4] = true /\ sel 0 [0; 3; 4] 0 = 0).
Proof.
  split; [by vm_compute|].
  apply (SparseMatrix_csr_unchecked [0; 3; 4] [1; 0; 1; 1]
           [5%float; 2%float; 7%float; 1%float] CLOSED dup2).
  by vm_compute.
Defined.

(** X3.  [set] outside its preconditions (a matrix that is not [OPEN], a row
    or a column index that is not below [nrow]) fails on an assertion and
    leaves the matrix, the counter and the output as they were; in
    particular every [set] that follows a [close] that returned fails so:
    [close] leaves the matrix [CLOSED]. *)
Theorem set_after_close :
  (forall (T : Type) (S : Scalar T) (p : process) (A : SparseMatrix T)
          (i j : Z) (v : T),
     state A <> OPEN \/ ~ 0 <= i < nrow A \/ ~ 0 <= j < nrow A ->
     set i j v (p, A) = (Fail AssertFail, (p, A)))
  /\ (forall (T : Type) (S : Scalar T) (s s' : @St T) (i j : Z) (v : T),
        close s = (Ret tt, s') ->
        state s'.2 = CLOSED /\ set i j v s' = (Fail AssertFail, s')).
Proof.
  split.
  - intros T S p A i j v. apply set_rejected.
  - intros T S s s' i j v Hclose. apply close_state in Hclose.
    split; [done|]. destruct s' as [p A]. apply set_rejected.
    left. simpl in Hclose. by rewrite Hclose.
Qed.

Lemma set_after_close_witness :
  set 0 2 1%float (process_start, dup2) = (Fail AssertFail, (process_start, dup2))
  /\ exists s' : @St float,
       close (build process_start 3 gap3_entries).2 = (Ret tt, s')
       /\ set 1 1 1%float s' = (Fail AssertFail, s').
Proof.
  split.
  - apply (proj1 set_after_close float _ process_start dup2 0 2 1%float).
    right. right. simpl. lia.
  - eexists. split; [by vm_compute|].
    apply (proj2 set_after_close float _
             (build process_start 3 gap3_entries).2).
    by vm_compute.
Defined.

(** X4.  [close] does not look at the state: on a matrix with [nrow + 1]
    offsets it returns whether the matrix is [OPEN] or [CLOSED], and a
    second [close] leaves the matrix exactly as the first one left it
    (the counter is untouched by both). *)
Theorem close_twice {T : Type} `{Scalar T} (s : @St T) :
  0 < nrow s.2 < UINT_MOD - 1 ->
  Z.of_nat (length (row_ptr s.2)) = nrow s.2 + 1 ->
  exists s1 s2 : @St T,
    close s = (Ret tt, s1) /\ close s1 = (Ret tt, s2)
    /\ state s1.2 = CLOSED /\ s2.2 = s1.2 /\ count s2.1 = count s.1.
Proof.
  intros Hn Hlen.
  destruct (row_ptr s.2) as [|r0 l] eqn:Hrp; [simpl in Hlen; lia|].
  assert (Z.of_nat (length l) = nrow s.2) as Hl by (simpl in Hlen; lia).
  pose proof (close_Ret s r0 l Hn Hrp Hl) as H1.
  set (s1 := closed_state (r0 :: fill r0 l) (warnings 1 l) CLOSED s) in *.
  pose proof (close_Ret s1 r0 (fill r0 l) Hn eq_refl
                ltac:(by rewrite fill_length)) as H2.
  exists s1, (closed_state (r0 :: fill r0 (fill r0 l))
                (warnings 1 (fill r0 l)) CLOSED s1).
  split; [done|]. split; [done|]. split; [done|]. split; [|done].
  unfold closed_state. simpl. by rewrite fill_fill.
Qed.

Lemma close_twice_witness :
  0 < nrow (build process_start 3 gap3_entries).2.2 < UINT_MOD - 1
  /\ Z.of_nat (length (row_ptr (build process_start 3 gap3_entries).2.2))
     = nrow (build process_start 3 gap3_entries).2.2 + 1
  /\ exists s1 s2 : @St float,
       close (build process_start 3 gap3_entries).2 = (Ret tt, s1)
       /\ close s1 = (Ret tt, s2)
       /\ state s1.2 = CLOSED /\ s2.2 = s1.2
       /\ count s2.1 = count (build process_start 3 gap3_entries).2.1.
Proof.
  split; [by vm_compute|]. split; [by vm_compute|].
  apply (close_twice (build process_start 3 gap3_entries).2);
    by vm_compute.
Defined.

Section Ranges.
Context {T : Type} `{Scalar T}.

Local Abbreviation matrix := (SparseMatrix T).

Lemma column_absent (A : matrix) i j :
  csr_inv A -> 0 <= i < nrow A -> ~ 0 <= j < nrow A ->
  j ∉ (row_entries A i).*1.
Proof.
  intros HA Hi Hj Hin. unfold row_entries in Hin.
  apply list_elem_of_fmap in Hin as (e & -> & He).
  apply list_elem_of_fmap in He as (d & -> & Hd).
  apply Hj. simpl. apply col_range; [done|]. by eapply row_index_range.
Qed.

Lemma get_row_beyond (A : matrix) i :
  csr_inv A -> nrow A <= i -> nrow A < UINT_MOD - 1 ->
  load (row_ptr A) i = Fail Undefined
  \/ (load (row_ptr A) i = Ret (sel 0 (row_ptr A) i)
      /\ i = nrow A
      /\ load (row_ptr A) (u32 (i + 1)) = Fail Undefined).
Proof.
  intros HA Hi Hn. pose proof (inv_len A HA) as Hlen.
  pose proof (inv_nrow A HA).
  destruct (decide (i = nrow A)) as [->|Hne].
  - right. split; [apply load_Ret; lia|]. split; [done|].
    rewrite u32_small by lia. apply load_out_of_bounds. lia.
  - left. apply load_out_of_bounds. lia.
Qed.

End Ranges.

(** X5.  No accessor checks the row index: on a valid matrix of fewer than
    [2^32 - 1] rows, both [operator()] and [diag] read out of bounds for
    every row index that is not below [nrow]; the matrix and the process
    are as before. *)
Theorem row_index_unchecked {T : Type} `{Scalar T}
    (p : process) (A : SparseMatrix T) (i j : Z) :
  valid_csr A = true -> nrow A <= i -> nrow A < UINT_MOD - 1 ->
  get A i j = Fail Undefined
  /\ get_mut i j (p, A) = (Fail Undefined, (p, A))
  /\ diag A i = Fail Undefined.
Proof.
  intros HA Hi Hn. apply valid_csr_inv in HA.
  pose proof (inv_len A HA) as Hlen. pose proof (inv_nrow A HA).
  unfold get, get_mut, diag, mbind, M_bind, gets, lift. simpl.
  destruct (get_row_beyond A i HA Hi Hn) as [Hbeg|(Hbeg & -> & Hend)].
  - by rewrite Hbeg.
  - rewrite Hbeg, Hend. simpl. repeat split; try done.
    apply load_out_of_bounds. rewrite (inv_last A HA). lia.
Qed.

Lemma row_index_unchecked_witness :
  valid_csr dup2 = true /\ nrow dup2 <= 2 /\ nrow dup2 < UINT_MOD - 1
  /\ get dup2 2 0 = Fail Undefined
  /\ get_mut 2 0 (process_start, dup2) = (Fail Undefined, (process_start, dup2))
  /\ diag dup2 2 = Fail Undefined.
Proof.
  split; [reflexivity|]. split; [by vm_compute|]. split; [by vm_compute|].
  apply (row_index_unchecked process_start dup2 2 0); by vm_compute.
Defined.

(** X6.  The column index is checked only by never matching: on a valid
    matrix and a row below [nrow], a column index that is not below [nrow]
    reads as zero through the const [operator()], and makes the non-const
    one print its message and abort, the matrix unchanged. *)
Theorem column_index_out_of_range {T : Type} `{Scalar T}
    (p : process) (A : SparseMatrix T) (i j : Z) :
  valid_csr A = true -> 0 <= i < nrow A -> ~ 0 <= j < nrow A ->
  get A i j = Ret tzero
  /\ get_mut i j (p, A)
     = (Fail Abort, ({| count := count p; cout := cout p ++ [NoElement i j] |}, A)).
Proof.
  intros HA Hi Hj. apply valid_csr_inv in HA.
  pose proof (column_absent A i j HA Hi Hj) as Habsent.
  apply first_match_None in Habsent. split.
  - by rewrite (get_Ret A i j HA Hi), Habsent.
  - rewrite (get_mut_head p A i j HA Hi).
    unfold row_entries in Habsent. rewrite first_match_head in Habsent.
    by destruct (head _).
Qed.

Lemma column_index_out_of_range_witness :
  valid_csr dup2 = true /\ 0 <= 0 < nrow dup2 /\ ~ 0 <= 7 < nrow dup2
  /\ get dup2 0 7 = Ret 0%float
  /\ get_mut 0 7 (process_start, dup2)
     = (Fail Abort, ({| count := 0; cout := [NoElement 0 7] |}, dup2)).
Proof.
  split; [reflexivity|]. split; [by vm_compute|].
  split; [simpl; lia|].
  refine (column_index_out_of_range process_start dup2 0 7 _ _ _);
    [reflexivity|by vm_compute|simpl; lia].
Defined.

(** X7.  On a valid matrix [multiply] never reads out of bounds: it returns
    the scaled product, of length [nrow], when [x] and [y] both have length
    [nrow], and fails on an assertion otherwise. *)
Theorem multiply_checked {T : Type} `{Scalar T}
    (A : SparseMatrix T) (x y : Vector) (scalar : T) :
  valid_csr A = true ->
  (size x = nrow A /\ size y = nrow A
   /\ multiply A x y scalar = Ret (scaled_product A x scalar)
   /\ size (scaled_product A x scalar) = nrow A)
  \/ (~ (size x = nrow A /\ size y = nrow A)
      /\ multiply A x y scalar = Fail AssertFail).
Proof.
  intros HA. apply valid_csr_inv in HA. pose proof (inv_nrow A HA).
  destruct (decide (size x = nrow A)) as [Hx|Hx].
  - destruct (decide (size y = nrow A)) as [Hy|Hy].
    + left. split; [done|]. split; [done|].
      split; [by apply multiply_Ret|].
      unfold size, scaled_product, range.
      rewrite length_fmap, length_seqZ. lia.
    + right. split; [tauto|]. unfold multiply.
      rewrite (bool_decide_eq_true_2 (size x = nrow A)) by done.
      rewrite (bool_decide_eq_false_2 (size x = size y)) by congruence.
      reflexivity.
  - right. split; [tauto|]. unfold multiply.
    rewrite (bool_decide_eq_false_2 (size x = nrow A)) by done.
    reflexivity.
Qed.

Lemma multiply_checked_witness :
  valid_csr identity3 = true
  /\ multiply identity3 [2%float; 3%float] [9%float; 9%float; 9%float] 1%float
     = Fail AssertFail.
Proof.
  split; [reflexivity|].
  destruct (multiply_checked identity3 [2%float; 3%float]
              [9%float; 9%float; 9%float] 1%float eq_refl)
    as [(Hx & _)|(_ & Hfail)]; [|exact Hfail].
  vm_compute in Hx. discriminate.
Defined.

Section Undefined.
Context {T : Type} `{Scalar T}.

Local Abbreviation matrix := (SparseMatrix T).
Local Abbreviation Vector := (@Vector T).

Lemma diag_Fail (A : matrix) i e : diag A i = Fail e -> e = Undefined.
Proof.
  unfold diag. destruct (load (row_ptr A) i) as [rb|e'] eqn:Hrb; simpl.
  - apply load_Fail.
  - intros [= <-]. by apply load_Fail in Hrb.
Qed.

Lemma diag_first_value (A : matrix) i d :
  diag A i = Ret d -> d = first_value A i.
Proof.
  unfold diag. destruct (load (row_ptr A) i) as [rb|] eqn:Hrb; [|done].
  simpl. intros Hd.
  apply load_Ret_inv in Hrb as [_ Hrb]. apply load_Ret_inv in Hd as [_ Hd].
  unfold first_value.
  by rewrite (sel_lookup 0 _ _ _ Hrb), (sel_lookup tzero _ _ _ Hd).
Qed.

(** One row of a sweep, whatever the first stored value of the row is. *)
Lemma relax_cases (A : matrix) (rhs : Vector) omg succ i (x : Vector) :
  csr_inv A -> size x = nrow A -> size rhs = nrow A ->
  0 <= i < nrow A -> succ i = Ret (i + 1) ->
  relax A rhs omg succ i x
  = match diag A i with
    | Ret d =>
        if tdiv_ok d
        then Ret (<[Z.to_nat i :=
                     tadd (sel tzero x i)
                          (tdiv (tmul omg (residual_seq A rhs x i))
                                (first_value A i))]> x,
                  residual_seq A rhs x i)
        else Fail Undefined
    | Fail _ => Fail Undefined
    end.
Proof.
  intros HA Hx Hrhs Hi Hsucc. unfold relax, vget, vset.
  unfold size in Hx, Hrhs. pose proof (inv_len A HA) as Hlen.
  rewrite (load_Ret tzero rhs) by lia. simpl.
  rewrite (load_row_beg A i) by done. simpl.
  rewrite Hsucc. simpl.
  rewrite (load_Ret 0 (row_ptr A) (i + 1)) by lia. simpl.
  rewrite (residual_loop A x); [|done|done|].
  2:{ intros d Hd'. by eapply row_index_range. }
  simpl. destruct (diag A i) as [d|e] eqn:Hd; simpl.
  - apply diag_first_value in Hd as ->. unfold divide.
    destruct (tdiv_ok (first_value A i)); [|done]. simpl.
    rewrite (load_Ret tzero x) by lia. simpl.
    by rewrite store_Ret by lia.
  - by apply diag_Fail in Hd as ->.
Qed.

Lemma sweep_loop_Fail {S} (A : matrix) (rhs : Vector) omg succ rows
    (proj : S -> Vector) (upd : S -> Vector * T -> S) (s : S) :
  csr_inv A -> size rhs = nrow A ->
  (forall s' xr, size (proj s') = nrow A -> size xr.1 = nrow A ->
     size (proj (upd s' xr)) = nrow A) ->
  (forall i, i ∈ rows -> 0 <= i < nrow A /\ succ i = Ret (i + 1)) ->
  (exists i, i ∈ rows
     /\ match diag A i with Ret d => tdiv_ok d | Fail _ => false end = false) ->
  size (proj s) = nrow A ->
  for_each rows (fun i s =>
      xr ← relax A rhs omg succ i (proj s); Ret (upd s xr)) s
  = Fail Undefined.
Proof.
  intros HA Hrhs Hupd Hrows (i & Hi & Hbad) Hs.
  apply (for_each_Fail (fun s' : S => size (proj s') = nrow A)
           (fun s' k => upd s'
              (<[Z.to_nat k :=
                   tadd (sel tzero (proj s') k)
                        (tdiv (tmul omg (residual_seq A rhs (proj s') k))
                              (first_value A k))]> (proj s'),
               residual_seq A rhs (proj s') k))); [| |done].
  - intros k s' Hk Hs'. destruct (Hrows k Hk) as [Hin Hsucc]. cbv beta.
    rewrite (relax_cases A rhs omg succ k (proj s')) by done.
    destruct (diag A k) as [d|e]; [|by right].
    destruct (tdiv_ok d); [|by right].
    left. split; [done|]. apply Hupd; [done|].
    unfold size. simpl. by rewrite length_insert.
  - exists i. split; [done|]. intros s' Hs'.
    destruct (Hrows i Hi) as [Hin Hsucc].
    rewrite (relax_cases A rhs omg succ i (proj s')) by done.
    destruct (diag A i) as [d|e]; [|done]. by rewrite Hbad.
Qed.

Lemma usucc_rows (A : matrix) i :
  csr_inv A -> i ∈ range 0 (nrow A) ->
  0 <= i < nrow A /\ usucc i = Ret (i + 1).
Proof.
  intros HA Hi. pose proof (inv_nrow A HA). apply elem_of_range in Hi.
  split; [lia|]. unfold usucc. by rewrite u32_small by lia.
Qed.

Lemma jacobi_loop_Fail (A : matrix) (r x : Vector) :
  csr_inv A -> size r = nrow A -> size x = nrow A ->
  diag_nonzero A = false ->
  for_each (range 0 (nrow A)) (fun i x =>
      ri ← vget r i;
      d ← diag A i;
      q ← divide ri d;
      xi ← vget x i;
      vset x i (tadd xi q)) x
  = Fail Undefined.
Proof.
  intros HA Hr Hx Hbad. unfold size in Hr.
  apply forallb_false_elem in Hbad as (i & Hi & Hbad).
  apply (for_each_Fail (fun x' : Vector => size x' = nrow A)
           (fun x' k => <[Z.to_nat k :=
              tadd (sel tzero x' k) (tdiv (sel tzero r k) (first_value A k))]> x'));
    [| |done].
  - intros k x' Hk Hx'. apply elem_of_range in Hk. unfold size in Hx'.
    unfold vget, vset. rewrite (load_Ret tzero r) by lia. simpl.
    destruct (diag A k) as [d|e] eqn:Hd; simpl.
    + apply diag_first_value in Hd as ->. unfold divide.
      destruct (tdiv_ok (first_value A k)); [|by right]. simpl.
      rewrite (load_Ret tzero x') by lia. simpl.
      rewrite store_Ret by lia. left. split; [done|].
      unfold size. by rewrite length_insert.
    + right. by apply diag_Fail in Hd as ->.
  - exists i. split; [done|]. intros x' Hx'. apply elem_of_range in Hi.
    unfold vget. rewrite (load_Ret tzero r) by lia. simpl.
    destruct (diag A i) as [d|e] eqn:Hd; simpl.
    + unfold divide. by rewrite Hbad.
    + by apply diag_Fail in Hd as ->.
Qed.

End Undefined.

(** X8.  The three solvers divide by [diag (i)] unguarded: on a valid matrix
    with vectors of length [nrow], when for some row [diag] reads past the
    end of [val] or yields a value that may not be divided by (zero, for
    [int]), [Jacobi_step], [SOR_step] and [SSOR_step] all have undefined
    behaviour. *)
Theorem solvers_undefined_diag {T : Type} `{Scalar T}
    (A : SparseMatrix T) (x rhs : Vector) (omg : T) :
  valid_csr A = true -> size x = nrow A -> size rhs = nrow A ->
  diag_nonzero A = false ->
  Jacobi_step A x rhs = Fail Undefined
  /\ SOR_step A x rhs omg = Fail Undefined
  /\ SSOR_step A x rhs omg = Fail Undefined.
Proof.
  intros HA Hx Hrhs Hbad. apply valid_csr_inv in HA.
  pose proof (inv_nrow A HA) as Hn.
  split; [|split].
  - unfold Jacobi_step.
    rewrite multiply_Ret; [|done|done|].
    2:{ unfold size, Vector_new. rewrite length_replicate. lia. }
    simpl. unfold vadd_assign.
    assert (size (scaled_product A x tneg_one) = nrow A) as Hsp.
    { unfold size, scaled_product, range. rewrite length_fmap, length_seqZ. lia. }
    rewrite bool_decide_eq_true_2 by congruence. simpl.
    rewrite jacobi_loop_Fail; [done|done| |done|done].
    unfold size in *. rewrite length_zip_with. lia.
  - unfold SOR_step, sweep.
    rewrite (sweep_loop_Fail A rhs omg usucc (range 0 (nrow A)) fst
               (fun s xr => (xr.1, tadd s.2 (tmul xr.2 xr.2)))); try done.
    + intros i Hi. by apply usucc_rows.
    + by apply forallb_false_elem in Hbad.
  - unfold SSOR_step.
    rewrite (sweep_loop_Fail A rhs omg usucc (range 0 (nrow A)) id
               (fun _ xr => xr.1)); try done.
    + intros i Hi. by apply usucc_rows.
    + by apply forallb_false_elem in Hbad.
Qed.

Lemma solvers_undefined_diag_witness :
  valid_csr zero_diag2 = true /\ diag_nonzero zero_diag2 = false
  /\ Jacobi_step zero_diag2 (int32_of <$> [1; 2]) (int32_of <$> [4; 7])
     = Fail Undefined
  /\ SOR_step zero_diag2 (int32_of <$> [1; 2]) (int32_of <$> [4; 7]) (int32_of 1)
     = Fail Undefined
  /\ SSOR_step zero_diag2 (int32_of <$> [1; 2]) (int32_of <$> [4; 7]) (int32_of 1)
     = Fail Undefined.
Proof.
  assert (valid_csr zero_diag2 = true) as HA by (by vm_compute).
  assert (diag_nonzero zero_diag2 = false) as Hd by (by vm_compute).
  split; [done|]. split; [done|].
  apply (solvers_undefined_diag zero_diag2 (int32_of <$> [1; 2])
           (int32_of <$> [4; 7]) (int32_of 1)); [done| | |done]; by vm_compute.
Defined.

Section IntIndex.
Context {T : Type} `{Scalar T}.

Local Abbreviation matrix := (SparseMatrix T).
Local Abbreviation Vector := (@Vector T).

Lemma backward_rows_last n :
  0 < n <= INT_MAX + 1 ->
  backward_rows n = (n - 1) :: reverse (range 0 (n - 1)).
Proof.
  intros Hn. unfold backward_rows, to_int. unfold INT_MAX in *.
  rewrite u32_small by (unfold UINT_MOD; lia).
  rewrite decide_True by (unfold INT_MAX; lia). unfold range.
  replace (n - 1 + 1 - 0) with ((n - 1) + 1) by lia.
  rewrite seqZ_app by lia. rewrite reverse_app.
  replace (n - 1 - 0) with (n - 1) by lia.
  rewrite Z.add_0_l. reflexivity.
Qed.

Lemma relax_isucc_overflow (A : matrix) (rhs : Vector) omg (x : Vector) i :
  csr_inv A -> size rhs = nrow A -> 0 <= i < nrow A -> INT_MAX <= i ->
  relax A rhs omg isucc i x = Fail Undefined.
Proof.
  intros HA Hrhs Hi Hmax. unfold relax, vget. unfold size in Hrhs.
  rewrite (load_Ret tzero rhs) by lia. simpl.
  rewrite (load_row_beg A i) by done. simpl.
  unfold isucc. rewrite decide_False by lia. reflexivity.
Qed.

End IntIndex.

(** X9.  The backward loop of [SSOR_step] counts with an [int].  On a valid
    matrix with divisible diagonal and vectors of length [nrow]: when
    [nrow = 2^31] the loop starts at [INT_MAX] and [i + 1] overflows, which
    is undefined; when [nrow > 2^31] the start [nrow - 1] converts to a
    negative [int], the loop body never runs, and the call returns the
    result of the forward sweep alone with the square root of zero. *)
Theorem SSOR_step_int_index {T : Type} `{Scalar T}
    (A : SparseMatrix T) (x rhs : Vector) (omg : T) :
  valid_csr A = true -> diag_nonzero A = true ->
  size x = nrow A -> size rhs = nrow A ->
  (nrow A = INT_MAX + 1 -> SSOR_step A x rhs omg = Fail Undefined)
  /\ (INT_MAX + 1 < nrow A ->
      SSOR_step A x rhs omg
      = Ret ((sweep_rows (residual_seq A rhs) A omg (range 0 (nrow A)) x).1,
             tsqrt tzero)).
Proof.
  intros HA Hd Hx Hrhs. apply valid_csr_inv in HA.
  pose proof (inv_nrow A HA) as Hn.
  unfold SSOR_step. rewrite forward_Ret by done.
  change (mbind ?f (Ret ?a)) with (f a). cbv beta.
  split; intros Hbig.
  - rewrite backward_rows_last by lia. unfold sweep. cbn [for_each fst].
    rewrite relax_isucc_overflow; [done|done|done|lia|lia].
  - rewrite backward_rows_skipped by lia. reflexivity.
Qed.

Lemma identity_valid n : 0 < n < UINT_MOD -> valid_csr (identity n) = true.
Proof.
  intros Hn. unfold valid_csr, identity. cbn [nrow row_ptr col_ind val].
  rewrite !andb_true_iff, !bool_decide_eq_true.
  rewrite !length_seqZ, !length_replicate.
  assert (forall k, 0 <= k <= n -> sel 0 (seqZ 0 (n + 1)) k = k) as Hsel.
  { intros k Hk. apply sel_lookup. rewrite lookup_seqZ_lt by lia.
    f_equal. lia. }
  repeat split; try lia.
  - apply Hsel. lia.
  - apply nondecreasing_intro. intros i a b Ha Hb.
    apply lookup_seqZ in Ha as [-> _]. apply lookup_seqZ in Hb as [-> _]. lia.
  - rewrite Hsel by lia. lia.
  - apply forallb_forall. intros c Hc. apply list_elem_of_In in Hc.
    apply elem_of_seqZ in Hc. apply bool_decide_eq_true. lia.
Qed.

Lemma identity_diag_nonzero n :
  0 < n < UINT_MOD -> diag_nonzero (identity n) = true.
Proof.
  intros Hn. unfold diag_nonzero. apply forallb_forall. intros i Hi.
  apply list_elem_of_In, elem_of_range in Hi. cbn [nrow identity] in Hi.
  unfold diag, identity. cbn [row_ptr val].
  rewrite (load_Ret 0) by (rewrite length_seqZ; lia).
  change (mbind ?f (Ret ?a)) with (f a). cbv beta.
  assert (sel 0 (seqZ 0 (n + 1)) i = i) as ->.
  { apply sel_lookup. rewrite lookup_seqZ_lt by lia. f_equal. lia. }
  rewrite (load_Ret 1%float) by (rewrite length_replicate; lia).
  reflexivity.
Qed.

Lemma size_Vector_new {T : Type} `{Scalar T} n :
  0 <= n -> size (Vector_new n) = n.
Proof. intros Hn. unfold size, Vector_new. rewrite length_replicate. lia. Qed.

Lemma SSOR_step_int_index_witness :
  SSOR_step (identity (INT_MAX + 1)) (Vector_new (INT_MAX + 1))
    (Vector_new (INT_MAX + 1)) 1%float = Fail Undefined
  /\ SSOR_step (identity (INT_MAX + 2)) (Vector_new (INT_MAX + 2))
       (Vector_new (INT_MAX + 2)) 1%float
     = Ret ((sweep_rows
               (residual_seq (identity (INT_MAX + 2)) (Vector_new (INT_MAX + 2)))
               (identity (INT_MAX + 2)) 1%float
               (range 0 (nrow (identity (INT_MAX + 2))))
               (Vector_new (INT_MAX + 2))).1,
            tsqrt tzero).
Proof.
  assert (0 < INT_MAX + 1 < UINT_MOD) as H1 by (unfold INT_MAX, UINT_MOD; lia).
  assert (0 < INT_MAX + 2 < UINT_MOD) as H2 by (unfold INT_MAX, UINT_MOD; lia).
  split.
  - refine (proj1 (SSOR_step_int_index (identity (INT_MAX + 1))
                     (Vector_new (INT_MAX + 1)) (Vector_new (INT_MAX + 1))
                     1%float (identity_valid _ H1) (identity_diag_nonzero _ H1)
                     (size_Vector_new _ _) (size_Vector_new _ _)) eq_refl); lia.
  - refine (proj2 (SSOR_step_int_index (identity (INT_MAX + 2))
                     (Vector_new (INT_MAX + 2)) (Vector_new (INT_MAX + 2))
                     1%float (identity_valid _ H2) (identity_diag_nonzero _ H2)
                     (size_Vector_new _ _) (size_Vector_new _ _)) _);
      cbn [nrow identity]; lia.
Defined.

Section RoundTrip.
Context {T : Type} `{Scalar T}.

Local Abbreviation matrix := (SparseMatrix T).
Local Abbreviation entry := (@entry T).
Local Abbreviation St := (@St T).

Lemma nondecreasing_cons a l :
  nondecreasing (a :: l) = true ->
  nondecreasing l = true /\ Forall (fun b => a <= b) l.
Proof.
  revert a. induction l as [|b l IH]; intros a Hnd; [done|].
  change (bool_decide (a <= b) && nondecreasing (b :: l) = true) in Hnd.
  apply andb_true_iff in Hnd as [Hab Hnd]. apply bool_decide_eq_true in Hab.
  split; [done|]. destruct (IH b Hnd) as [_ Hall].
  constructor; [done|]. eapply Forall_impl; [exact Hall|].
  simpl. intros c Hc. lia.
Qed.

Lemma rows_from (e : entry) (es : list entry) :
  nondecreasing ((fun e : entry => e.1.1) <$> e :: es) = true ->
  nondecreasing ((fun e : entry => e.1.1) <$> es) = true
  /\ forall e' : entry, e' ∈ es -> e.1.1 <= e'.1.1.
Proof.
  rewrite fmap_cons. intros Hnd.
  apply nondecreasing_cons in Hnd as [Hnd Hall]. split; [done|].
  intros e' He'. rewrite Forall_fmap, Forall_forall in Hall.
  by apply Hall.
Qed.

Lemma filter_none {A} (P : A -> Prop) `{!forall x, Decision (P x)} (l : list A) :
  (forall x, x ∈ l -> ~ P x) -> filter P l = [].
Proof.
  induction l as [|a l IH]; intros Hl; [done|].
  rewrite filter_cons, decide_False by (apply Hl; left).
  apply IH. intros x Hx. apply Hl. by right.
Qed.

(** In a row-ascending sequence of calls, the calls for the rows up to [i]
    are those for the rows below [i] followed by those for row [i]. *)
Lemma filter_row_split (es : list entry) i :
  nondecreasing ((fun e : entry => e.1.1) <$> es) = true ->
  filter (fun e : entry => e.1.1 <= i) es
  = filter (fun e : entry => e.1.1 <= i - 1) es
    ++ filter (fun e : entry => e.1.1 = i) es.
Proof.
  induction es as [|e es IH]; intros Hnd; [done|].
  apply rows_from in Hnd as [Hnd Hfrom]. specialize (IH Hnd).
  rewrite !filter_cons.
  destruct (decide (e.1.1 <= i - 1)) as [Hlt|Hlt].
  - rewrite decide_True by lia. rewrite decide_False by lia.
    simpl. by rewrite IH.
  - destruct (decide (e.1.1 = i)) as [Heq|Hne].
    + rewrite decide_True by lia.
      rewrite (filter_none (fun e : entry => e.1.1 <= i - 1) es) in *.
      * simpl in *. by rewrite IH.
      * intros e' He'. specialize (Hfrom e' He'). lia.
      * intros e' He'. specialize (Hfrom e' He'). lia.
    + rewrite decide_False by lia. done.
Qed.

(** The calls for the rows up to [k] are a prefix of the sequence. *)
Lemma filter_row_prefix (es : list entry) k :
  nondecreasing ((fun e : entry => e.1.1) <$> es) = true ->
  filter (fun e : entry => e.1.1 <= k) es
  = take (length (filter (fun e : entry => e.1.1 <= k) es)) es.
Proof.
  induction es as [|e es IH]; intros Hnd; [done|].
  apply rows_from in Hnd as [Hnd Hfrom]. specialize (IH Hnd).
  rewrite filter_cons. case_decide as He.
  - simpl. by rewrite <- IH.
  - rewrite (filter_none (fun e : entry => e.1.1 <= k) es); [done|].
    intros e' He'. specialize (Hfrom e' He'). lia.
Qed.

Lemma filter_row_segment (es : list entry) i :
  nondecreasing ((fun e : entry => e.1.1) <$> es) = true ->
  filter (fun e : entry => e.1.1 = i) es
  = drop (Z.to_nat (inserted_through (i - 1) es))
         (take (Z.to_nat (inserted_through i es)) es).
Proof.
  intros Hnd. unfold inserted_through. rewrite !Nat2Z.id.
  rewrite <- (filter_row_prefix es i Hnd), (filter_row_split es i Hnd).
  by rewrite drop_app_length.
Qed.

(** Reading the positions [a .. b-1] of the two parallel arrays gives the
    calls at these positions. *)
Lemma stored_segment (A : matrix) (es : list entry) a b :
  col_ind A = (fun e : entry => e.1.2) <$> es ->
  val A = (fun e : entry => e.2) <$> es ->
  0 <= a -> b <= Z.of_nat (length es) ->
  stored A <$> range a b
  = (fun e : entry => (e.1.2, e.2)) <$> drop (Z.to_nat a) (take (Z.to_nat b) es).
Proof.
  intros Hcols Hvals Ha Hb. apply list_eq. intros k.
  rewrite !list_lookup_fmap, lookup_drop. unfold range.
  destruct (decide (Z.of_nat k < b - a)) as [Hk|Hk].
  - rewrite lookup_seqZ_lt by lia. rewrite lookup_take_lt by lia.
    destruct (lookup_lt_is_Some_2 es (Z.to_nat a + k)) as [e He]; [lia|].
    rewrite He. simpl. unfold stored, sel. rewrite Hcols, Hvals.
    rewrite !list_lookup_fmap.
    replace (Z.to_nat (a + Z.of_nat k)) with (Z.to_nat a + k)%nat by lia.
    by rewrite He.
  - rewrite lookup_seqZ_ge by lia.
    destruct (decide (Z.to_nat a + k < Z.to_nat b)%nat).
    + lia.
    + by rewrite lookup_take_ge by lia.
Qed.

Lemma diag_head (A : matrix) i e rest :
  csr_inv A -> 0 <= i < nrow A -> row_entries A i = e :: rest ->
  diag A i = Ret e.2.
Proof.
  intros HA Hi Hrow.
  assert (sel 0 (row_ptr A) i < sel 0 (row_ptr A) (i + 1)) as Hlt.
  { destruct (decide (sel 0 (row_ptr A) i < sel 0 (row_ptr A) (i + 1)));
      [done|].
    unfold row_entries, range in Hrow. by rewrite seqZ_nil in Hrow by lia. }
  assert (e.2 = first_value A i) as ->.
  { unfold row_entries, range in Hrow. rewrite seqZ_cons in Hrow by lia.
    simpl in Hrow. by injection Hrow as <- _. }
  pose proof (row_bounds A i HA Hi). apply diag_Ret; [done|done|lia].
Qed.

(** The matrix that the protocol leaves in a process whose counter stands
    at zero. *)
Lemma protocol_closed (p : process) n (es : list entry) :
  count p = 0 -> Z.of_nat (length es) < UINT_MOD ->
  0 < n < UINT_MOD - 1 -> protocol n es = true ->
  exists s s' : St,
    build p n es = (Ret tt, s) /\ close s = (Ret tt, s')
    /\ valid_csr s'.2 = true
    /\ nrow s'.2 = n /\ state s'.2 = CLOSED
    /\ col_ind s'.2 = (fun e : entry => e.1.2) <$> es
    /\ val s'.2 = (fun e : entry => e.2) <$> es
    /\ forall k, 0 <= k <= n ->
         sel 0 (row_ptr s'.2) k = inserted_through (k - 1) es.
Proof.
  intros Hc Hmax Hn Hp.
  destruct (close_valid p n es Hc Hmax Hn Hp)
    as (s & s' & Hbuild & Hclose & Hvalid & Hrows).
  exists s, s'. split; [done|]. split; [done|]. split; [done|].
  destruct (build_built p n es ltac:(rewrite Hc; by vm_compute) Hn Hp)
    as (s0 & Hbuild0 & Hb).
  rewrite Hbuild in Hbuild0. injection Hbuild0 as <-.
  destruct (built_row_ptr _ _ _ _ _ Hb) as (l & Hrp & Hlen & _).
  destruct Hb as [_ _ Hnrow _ Hcols Hvals _ _ _].
  rewrite (close_Ret s 0 l) in Hclose by (try done; lia).
  injection Hclose as <-. unfold closed_state. cbn [snd nrow state col_ind val].
  repeat split; try done.
  intros k Hk. destruct (decide (k = 0)) as [->|Hk0].
  - rewrite inserted_through_below; [done|].
    intros e He. destruct (protocol_in_range n es e Hp He). lia.
  - specialize (Hrows (k - 1) ltac:(lia)).
    by replace (k - 1 + 1) with k in Hrows by lia.
Qed.

End RoundTrip.

(** X10.  In a process whose counter of [set] stands at zero,
    [construct (n)], row-ascending calls of [set] (fewer than [2^32]) and
    [close ()] leave a matrix that satisfies the invariants of the data
    model: [col_ind] and [val] hold the columns and values in call order,
    [row_ptr[k]] is the number of entries inserted into the rows below [k].
    When an entry was inserted, the constructor from a triple accepts these
    three arrays and yields the same matrix. *)
Theorem protocol_builds_csr {T : Type} `{Scalar T}
    (p : process) (n : Z) (es : list (@entry T)) :
  count p = 0 -> Z.of_nat (length es) < UINT_MOD ->
  0 < n < UINT_MOD - 1 -> protocol n es = true ->
  exists s s' : @St T,
    build p n es = (Ret tt, s) /\ close s = (Ret tt, s')
    /\ valid_csr s'.2 = true /\ nrow s'.2 = n
    /\ col_ind s'.2 = (fun e : @entry T => e.1.2) <$> es
    /\ val s'.2 = (fun e : @entry T => e.2) <$> es
    /\ (forall k, 0 <= k <= n ->
          sel 0 (row_ptr s'.2) k = inserted_through (k - 1) es)
    /\ (es <> [] ->
        SparseMatrix_csr (row_ptr s'.2) (col_ind s'.2) (val s'.2) CLOSED
        = Ret s'.2).
Proof.
  intros Hc Hmax Hn Hp.
  destruct (protocol_closed p n es Hc Hmax Hn Hp)
    as (s & s' & Hbuild & Hclose & Hvalid & Hnrow & Hst & Hcols & Hvals & Hrp).
  exists s, s'. repeat (split; [done|]).
  intros Hes. pose proof (valid_csr_inv _ Hvalid) as HA.
  pose proof (inv_len _ HA) as Hlen. pose proof (inv_nrow _ HA) as Hnr.
  assert (u32 (Z.of_nat (length (row_ptr s'.2)) - 1) = nrow s'.2) as Hu.
  { rewrite Hlen. replace (nrow s'.2 + 1 - 1) with (nrow s'.2) by lia.
    apply u32_small. lia. }
  rewrite csr_accepted_Ret.
  - rewrite Hu. destruct s' as [p' [nr rp ci v st]]. simpl in *. by subst st.
  - unfold csr_accepted. rewrite Hu.
    split; [lia|]. split.
    { rewrite Hcols, length_fmap. destruct es; [done|]. simpl. lia. }
    split; [apply (inv_cols_len _ HA)|]. split.
    + rewrite (lookup_sel 0) by lia. f_equal. apply (inv_last _ HA).
    + apply (inv_cols _ HA).
Qed.

Lemma protocol_builds_csr_witness :
  exists s s' : @St float,
    build process_start 3 gap3_entries = (Ret tt, s)
    /\ close s = (Ret tt, s')
    /\ valid_csr s'.2 = true /\ nrow s'.2 = 3
    /\ col_ind s'.2 = (fun e : @entry float => e.1.2) <$> gap3_entries
    /\ val s'.2 = (fun e : @entry float => e.2) <$> gap3_entries
    /\ (forall k, 0 <= k <= 3 ->
          sel 0 (row_ptr s'.2) k = inserted_through (k - 1) gap3_entries)
    /\ (gap3_entries <> [] ->
        SparseMatrix_csr (row_ptr s'.2) (col_ind s'.2) (val s'.2) CLOSED
        = Ret s'.2).
Proof.
  apply (protocol_builds_csr process_start 3 gap3_entries);
    [reflexivity|by vm_compute|unfold UINT_MOD; lia|reflexivity].
Defined.

(** X11.  What was inserted is what is read.  After [construct (n)],
    row-ascending calls of [set] and [close ()] in a process whose counter
    stands at zero, the stored entries of every row [i] are the entries
    inserted into row [i], in call order, and [operator() (i, j)] returns
    the value of the first call [set (i, j, v)], and zero when there was
    none; [diag (i)] returns the value of the first call for row [i],
    whatever its column. *)
Theorem protocol_round_trip {T : Type} `{Scalar T}
    (p : process) (n : Z) (es : list (@entry T)) (i j : Z) :
  count p = 0 -> Z.of_nat (length es) < UINT_MOD ->
  0 < n < UINT_MOD - 1 -> protocol n es = true -> 0 <= i < n ->
  exists s s' : @St T,
    build p n es = (Ret tt, s) /\ close s = (Ret tt, s')
    /\ row_entries s'.2 i = inserted_entries i es
    /\ get s'.2 i j = Ret (default tzero (first_match j (inserted_entries i es)))
    /\ (forall e rest, inserted_entries i es = e :: rest ->
          diag s'.2 i = Ret e.2).
Proof.
  intros Hc Hmax Hn Hp Hi.
  destruct (protocol_closed p n es Hc Hmax Hn Hp)
    as (s & s' & Hbuild & Hclose & Hvalid & Hnrow & Hst & Hcols & Hvals & Hrp).
  exists s, s'. split; [done|]. split; [done|].
  pose proof (valid_csr_inv _ Hvalid) as HA.
  assert (row_entries s'.2 i = inserted_entries i es) as Hrow.
  { unfold row_entries, inserted_entries.
    rewrite (Hrp i), (Hrp (i + 1)) by lia.
    replace (i + 1 - 1) with i by lia.
    rewrite (stored_segment s'.2 es);
      [|done|done|unfold inserted_through; lia|apply inserted_in_le_through].
    f_equal. symmetry. apply filter_row_segment.
    unfold protocol in Hp. by apply andb_true_iff in Hp as [_ Hp]. }
  split; [done|]. split.
  - rewrite get_Ret by (try done; lia). by rewrite Hrow.
  - intros e rest He. rewrite <- Hrow in He.
    apply (diag_head s'.2 i e rest HA); [lia|done].
Qed.

Lemma protocol_round_trip_witness :
  exists s s' : @St float,
    build process_start 3 gap3_entries = (Ret tt, s)
    /\ close s = (Ret tt, s')
    /\ row_entries s'.2 2 = inserted_entries 2 gap3_entries
    /\ get s'.2 2 2
       = Ret (default tzero (first_match 2 (inserted_entries 2 gap3_entries)))
    /\ (forall e rest, inserted_entries 2 gap3_entries = e :: rest ->
          diag s'.2 2 = Ret e.2).
Proof.
  apply (protocol_round_trip process_start 3 gap3_entries 2 2);
    [reflexivity|by vm_compute|unfold UINT_MOD; lia|reflexivity|lia].
Defined.

(** X12.  [diag (i)] on a row that stores nothing: on a valid matrix the
    read [val[row_ptr[i]]] then lands in the next row, so that [diag (i)] is
    [diag (i + 1)], and past the end of [val] when [i] is the last row,
    which is undefined. *)
Theorem diag_empty_row {T : Type} `{Scalar T} (A : SparseMatrix T) (i : Z) :
  valid_csr A = true -> 0 <= i < nrow A -> row_entries A i = [] ->
  (i + 1 < nrow A -> diag A i = diag A (i + 1))
  /\ (i + 1 = nrow A -> diag A i = Fail Undefined).
Proof.
  intros HA Hi Hrow. apply valid_csr_inv in HA.
  pose proof (row_bounds A i HA Hi) as Hb.
  assert (sel 0 (row_ptr A) i = sel 0 (row_ptr A) (i + 1)) as Heq.
  { unfold row_entries, range in Hrow. apply fmap_nil_inv in Hrow.
    apply (f_equal length) in Hrow. rewrite length_seqZ in Hrow.
    simpl in Hrow. lia. }
  unfold diag. rewrite (load_row_beg A i) by done.
  change (mbind ?f (Ret ?a)) with (f a). cbv beta. split; intros Hnext.
  - rewrite (load_row_beg A (i + 1)) by (try done; lia).
    change (mbind ?f (Ret ?a)) with (f a). cbv beta. by rewrite Heq.
  - apply load_out_of_bounds. right. rewrite Heq, Hnext.
    rewrite (inv_last A HA). lia.
Qed.

Lemma diag_empty_row_witness :
  (valid_csr gap3 = true /\ 0 <= 1 < nrow gap3 /\ row_entries gap3 1 = []
   /\ diag gap3 1 = diag gap3 2)
  /\ (valid_csr tail_empty3 = true /\ 0 <= 2 < nrow tail_empty3
      /\ row_entries tail_empty3 2 = []
      /\ diag tail_empty3 2 = Fail Undefined).
Proof.
  split.
  - split; [reflexivity|]. split; [simpl; lia|]. split; [reflexivity|].
    apply (diag_empty_row gap3 1); [reflexivity|simpl; lia|reflexivity|simpl; lia].
  - split; [reflexivity|]. split; [simpl; lia|]. split; [reflexivity|].
    apply (diag_empty_row tail_empty3 2);
      [reflexivity|simpl; lia|reflexivity|reflexivity].
Defined.

Section Compose.
Context {T : Type} `{Scalar T}.

Local Abbreviation matrix := (SparseMatrix T).
Local Abbreviation Vector := (@Vector T).

(** A sweep that keeps [x] only is the sweep that also accumulates [res],
    with [res] dropped. *)
Lemma forward_sweep (A : matrix) (rhs : Vector) omg succ rows (x : Vector) res :
  for_each rows (fun i x => xr ← relax A rhs omg succ i x; Ret xr.1) x
  = match for_each rows (fun i s =>
            xr ← relax A rhs omg succ i s.1;
            Ret (xr.1, tadd s.2 (tmul xr.2 xr.2))) (x, res) with
    | Ret s => Ret s.1
    | Fail e => Fail e
    end.
Proof.
  revert x res. induction rows as [|i rows IH]; intros x res; [done|].
  cbn [for_each fst snd].
  destruct (relax A rhs omg succ i x) as [xr|e]; [|done]. simpl.
  apply IH.
Qed.

Lemma get_scan (p : process) (A : matrix) (i : Z) j ds :
  match scan A j ds with
  | Ret (Some d) => load (val A) d
  | Ret None => Ret tzero
  | Fail e => Fail e
  end
  = match (r ← lift (scan A j ds);
           match r with
           | Some d => _ ← lift (load (val A) d); mret d
           | None => _ ← modify (print (NoElement i j)); lift (Fail Abort)
           end) (p, A) with
    | (Ret d, _) => load (val A) d
    | (Fail Abort, _) => Ret tzero
    | (Fail e, _) => Fail e
    end
  /\ scan A j ds <> Fail Abort /\ scan A j ds <> Fail AssertFail.
Proof.
  induction ds as [|d ds IH]; [done|].
  cbn [scan]. destruct (load (col_ind A) d) as [c|e] eqn:Hc.
  - simpl. case_decide; [|apply IH].
    split; [|done]. unfold mbind, M_bind, lift. simpl.
    destruct (load (val A) d) as [v|e] eqn:Hv; simpl.
    + by rewrite Hv.
    + by apply load_Fail in Hv as ->.
  - apply load_Fail in Hc as ->. done.
Qed.

End Compose.

(** X13.  [SSOR_step] is [SOR_step] followed by the backward sweep: its
    forward loop leaves in [x] what [SOR_step] leaves there and fails when
    [SOR_step] fails, its result is that of the backward sweep from that
    [x]; the value that [SOR_step] returns plays no part. *)
Theorem SSOR_step_after_SOR_step {T : Type} `{Scalar T}
    (A : SparseMatrix T) (x rhs : Vector) (omg : T) :
  SSOR_step A x rhs omg
  = match SOR_step A x rhs omg with
    | Ret (x1, _) =>
        s ← sweep A rhs omg isucc (backward_rows (nrow A)) x1;
        Ret (s.1, tsqrt s.2)
    | Fail e => Fail e
    end.
Proof.
  unfold SSOR_step, SOR_step, sweep.
  rewrite (forward_sweep A rhs omg usucc (range 0 (nrow A)) x tzero).
  destruct (for_each (range 0 (nrow A)) _ (x, tzero)) as [[x1 res]|e]; done.
Qed.

(** X14.  The two [operator()] agree on every matrix, valid or not: the
    const one returns what the reference returned by the non-const one
    designates, zero where the non-const one aborts, and has undefined
    behaviour where the non-const one has. *)
Theorem get_of_get_mut {T : Type} `{Scalar T}
    (p : process) (A : SparseMatrix T) (i j : Z) :
  get A i j
  = match get_mut i j (p, A) with
    | (Ret d, _) => load (val A) d
    | (Fail Abort, _) => Ret tzero
    | (Fail e, _) => Fail e
    end.
Proof.
  unfold get, get_mut. unfold mbind at 1 2 3 4 5 6 7. unfold M_bind at 1 2 3.
  unfold gets, lift. cbn [fst snd].
  destruct (load (row_ptr A) i) as [rb|e] eqn:Hrb; cbn [outcome_bind].
  2:{ by apply load_Fail in Hrb as ->. }
  destruct (load (row_ptr A) (u32 (i + 1))) as [re|e] eqn:Hre; cbn [outcome_bind].
  2:{ by apply load_Fail in Hre as ->. }
  destruct (get_scan p A i j (range rb re)) as (Hscan & Hab & Has).
  unfold mbind, M_bind, lift in Hscan.
  destruct (scan A j (range rb re)) as [[d|]|e]; simpl in *; [done|done|].
  by destruct e.
Qed.

Section FixedPoint.
Context {T : Type} `{Scalar T}.

Local Abbreviation matrix := (SparseMatrix T).
Local Abbreviation Vector := (@Vector T).

Lemma fmap_sel_range (x : Vector) n :
  Z.of_nat (length x) = n -> sel tzero x <$> range 0 n = x.
Proof.
  intros Hx. apply list_eq. intros k. rewrite list_lookup_fmap. unfold range.
  destruct (decide (Z.of_nat k < n)) as [Hk|Hk].
  - rewrite lookup_seqZ_lt by lia. simpl. rewrite Z.add_0_l.
    rewrite <- (lookup_sel tzero x (Z.of_nat k)) by lia.
    by rewrite Nat2Z.id.
  - rewrite lookup_seqZ_ge by lia. simpl. symmetry.
    apply lookup_ge_None_2. lia.
Qed.

Lemma sum_squares_zero n :
  zero_laws -> sum_squares ((fun _ : Z => tzero) <$> range 0 n) = tzero.
Proof.
  intros Z0. unfold sum_squares. generalize (range 0 n). intros l.
  induction l as [|a l IH]; [done|].
  simpl. by rewrite (mul_zero Z0), (add_zero Z0).
Qed.

Lemma sweep_rows_fixed resid (A : matrix) omg rows (x : Vector) :
  ring_laws -> zero_laws -> size x = nrow A ->
  (forall i, 0 <= i < nrow A -> resid x i = tzero) ->
  (forall i, i ∈ rows -> 0 <= i < nrow A) ->
  sweep_rows resid A omg rows x = (x, tzero).
Proof.
  intros L Z0 Hx Hres. unfold sweep_rows, size in *.
  induction rows as [|i rows IH]; intros Hrows; [done|].
  simpl. unfold relax_row at 2. simpl.
  rewrite (Hres i) by (apply Hrows; left).
  rewrite !(mul_zero Z0), (div_zero Z0), !(add_zero Z0).
  rewrite list_insert_id.
  - apply IH. intros k Hk. apply Hrows. by right.
  - apply lookup_sel. specialize (Hrows i ltac:(left)). lia.
Qed.

Lemma jacobi_update_fixed (A : matrix) (x rhs : Vector) :
  zero_laws -> size x = nrow A ->
  (forall i, 0 <= i < nrow A -> residual A rhs x i = tzero) ->
  jacobi_update (residual A rhs) A x = (x, tsqrt tzero).
Proof.
  intros Z0 Hx Hres. unfold jacobi_update, size in *.
  assert (residual A rhs x <$> range 0 (nrow A)
          = (fun _ : Z => tzero) <$> range 0 (nrow A)) as ->.
  { apply list_fmap_ext. intros k i Hi. apply Hres.
    apply list_elem_of_lookup_2, elem_of_range in Hi. lia. }
  rewrite (sum_squares_zero _ Z0). f_equal.
  etransitivity; [|apply (fmap_sel_range x (nrow A) Hx)].
  apply list_fmap_ext. intros k i Hi.
  apply list_elem_of_lookup_2, elem_of_range in Hi.
  rewrite (sel_fmap_range (fun _ : Z => tzero)) by lia.
  by rewrite (div_zero Z0), (add_zero Z0).
Qed.

End FixedPoint.

Lemma int32_zero_laws : @zero_laws int32 int_scalar.
Proof.
  split; simpl.
  - intros a. change (wrap_int 0) with 0. rewrite Z.add_0_r.
    apply int32_of_val.
  - intros a. change (wrap_int 0) with 0. by rewrite Z.mul_0_r.
  - intros d. change (wrap_int 0) with 0.
    destruct (decide (`d = 0)) as [->|Hd]; [done|].
    by rewrite Z.quot_0_l.
Qed.

(** X15.  An exact solution is a fixed point of the three solvers.  Where
    the element type obeys the ring laws and the laws of zero (as [int]
    does), on a valid matrix with divisible diagonal: when [rhs[i]] minus
    the sum of row [i] against [x] is zero for every row, [Jacobi_step],
    [SOR_step] for every [omg], and [SSOR_step] (the number of rows fitting
    an [int]) leave [x] as it is and return the square root of zero. *)
Theorem solvers_fixed_point {T : Type} `{Scalar T}
    (A : SparseMatrix T) (x rhs : Vector) (omg : T) :
  ring_laws -> zero_laws ->
  valid_csr A = true -> diag_nonzero A = true ->
  size x = nrow A -> size rhs = nrow A ->
  (forall i, 0 <= i < nrow A -> residual A rhs x i = tzero) ->
  Jacobi_step A x rhs = Ret (x, tsqrt tzero)
  /\ SOR_step A x rhs omg = Ret (x, tsqrt tzero)
  /\ (nrow A <= INT_MAX -> SSOR_step A x rhs omg = Ret (x, tsqrt tzero)).
Proof.
  intros L Z0 HA Hd Hx Hrhs Hres. apply valid_csr_inv in HA.
  assert (forall i, 0 <= i < nrow A -> residual_seq A rhs x i = tzero) as Hseq.
  { intros i Hi. rewrite residual_seq_eq by done. by apply Hres. }
  assert (forall rows, (forall i, i ∈ rows -> 0 <= i < nrow A) ->
            sweep_rows (residual_seq A rhs) A omg rows x = (x, tzero)) as Hsweep.
  { intros rows Hrows. by apply sweep_rows_fixed. }
  assert (forall i, i ∈ range 0 (nrow A) -> 0 <= i < nrow A) as Hrange.
  { intros i Hi. by apply elem_of_range in Hi. }
  split; [|split].
  - rewrite Jacobi_step_Ret by done. f_equal.
    rewrite (jacobi_update_ext _ (residual A rhs)).
    + by apply jacobi_update_fixed.
    + intros x' i. by apply residual_neg_eq.
  - rewrite SOR_step_Ret by done. cbv zeta. by rewrite Hsweep.
  - intros Hmax. rewrite SSOR_step_Ret by done. cbv zeta.
    rewrite (Hsweep (range 0 (nrow A))) by done. cbn [fst].
    rewrite Hsweep; [done|].
    intros i Hi. rewrite elem_of_reverse in Hi. by apply Hrange.
Qed.

Lemma solvers_fixed_point_witness :
  Jacobi_step sym2 (int32_of <$> [1; 2]) (int32_of <$> [4; 7])
  = Ret (int32_of <$> [1; 2], tsqrt tzero)
  /\ SOR_step sym2 (int32_of <$> [1; 2]) (int32_of <$> [4; 7]) (int32_of 1)
     = Ret (int32_of <$> [1; 2], tsqrt tzero)
  /\ (nrow sym2 <= INT_MAX ->
      SSOR_step sym2 (int32_of <$> [1; 2]) (int32_of <$> [4; 7]) (int32_of 1)
      = Ret (int32_of <$> [1; 2], tsqrt tzero)).
Proof.
  apply (solvers_fixed_point sym2 (int32_of <$> [1; 2]) (int32_of <$> [4; 7])
           (int32_of 1) int32_ring_laws int32_zero_laws).
  - by vm_compute.
  - by vm_compute.
  - by vm_compute.
  - by vm_compute.
  - intros i Hi. assert (i = 0 \/ i = 1) as [-> | ->] by (simpl in Hi; lia);
      apply dsig_eq; by vm_compute.
Defined.

Section Frame.
Context {T : Type} `{Scalar T}.

Local Abbreviation matrix := (SparseMatrix T).

(** Changing the value at one position does not change the first match for
    column [j'] among positions that avoid it or whose column is another. *)
Lemma first_match_frame (A A' : matrix) d j' ds :
  col_ind A' = col_ind A ->
  (forall d', d' ∈ ds -> d' <> d ->
     sel tzero (val A') d' = sel tzero (val A) d') ->
  (d ∈ ds -> sel 0 (col_ind A) d <> j') ->
  first_match j' (stored A' <$> ds) = first_match j' (stored A <$> ds).
Proof.
  intros Hcols. induction ds as [|d' ds IH]; intros Hvals Hd; [done|].
  simpl. rewrite Hcols. case_decide as Hc.
  - destruct (decide (d' = d)) as [->|Hne].
    + exfalso. apply Hd; [left|done].
    + rewrite Hvals; [done|left|done].
  - apply IH.
    + intros d0 Hd0. apply Hvals. by right.
    + intros Hin. apply Hd. by right.
Qed.

Lemma rows_disjoint (A : matrix) i i' d :
  csr_inv A -> 0 <= i < nrow A -> 0 <= i' < nrow A -> i' <> i ->
  d ∈ range (sel 0 (row_ptr A) i) (sel 0 (row_ptr A) (i + 1)) ->
  d ∉ range (sel 0 (row_ptr A) i') (sel 0 (row_ptr A) (i' + 1)).
Proof.
  intros HA Hi Hi' Hne Hd Hd'. apply elem_of_range in Hd, Hd'.
  destruct (decide (i' < i)).
  - pose proof (row_ptr_mono A (i' + 1) i HA ltac:(lia) ltac:(lia)). lia.
  - pose proof (row_ptr_mono A (i + 1) i' HA ltac:(lia) ltac:(lia)). lia.
Qed.

End Frame.

(** X16.  Assigning through the reference that the non-const
    [operator() (i, j)] returns changes no other element: on a valid
    matrix the assignment succeeds, the matrix stays valid, and every
    [(i', j')] other than [(i, j)] with [i' < nrow] reads as before. *)
Theorem assign_frame {T : Type} `{Scalar T}
    (p : process) (A : SparseMatrix T) (i j d : Z) (a : T) (i' j' : Z) :
  valid_csr A = true -> 0 <= i < nrow A -> 0 <= i' < nrow A ->
  get_mut i j (p, A) = (Ret d, (p, A)) -> (i', j') <> (i, j) ->
  exists A',
    assign d a A = Ret A' /\ valid_csr A' = true
    /\ get A' i' j' = get A i' j'.
Proof.
  intros HAb Hi Hi' Hmut Hne. pose proof (valid_csr_inv A HAb) as HA.
  rewrite (get_mut_head p A i j HA Hi) in Hmut.
  destruct (head _) as [d0|] eqn:Hhead; [|done].
  injection Hmut as ->.
  apply head_Some_elem_of in Hhead. unfold matching in Hhead.
  apply list_elem_of_filter in Hhead as [Hcol Hd].
  pose proof (row_index_range A i d HA Hi Hd) as Hrange.
  unfold assign. rewrite store_Ret by done.
  change (mbind ?f (Ret ?v)) with (f v). cbv beta.
  eexists. split; [done|].
  assert (valid_csr {| nrow := nrow A; row_ptr := row_ptr A;
                       col_ind := col_ind A;
                       val := <[Z.to_nat d := a]> (val A);
                       state := state A |} = true) as HAb'.
  { unfold valid_csr in *. cbn [nrow row_ptr col_ind val].
    by rewrite length_insert. }
  split; [done|].
  rewrite (get_Ret _ i' j' (valid_csr_inv _ HAb')) by done.
  rewrite (get_Ret A i' j' HA) by done. f_equal. f_equal.
  unfold row_entries. cbn [row_ptr].
  apply (first_match_frame A _ d); [done| |].
  - intros d' Hin Hd'. cbn [val]. unfold sel.
    pose proof (row_index_range A i' d' HA Hi' Hin).
    rewrite list_lookup_insert_ne; [done|lia].
  - intros Hin Hj'. destruct (decide (i' = i)) as [->|Hrow].
    + apply Hne. by rewrite <- Hj', Hcol.
    + by apply (rows_disjoint A i i' d HA).
Qed.

Lemma assign_frame_witness :
  get_mut 0 0 (process_start, dup2) = (Ret 1, (process_start, dup2))
  /\ exists A',
       assign 1 9%float dup2 = Ret A' /\ valid_csr A' = true
       /\ get A' 0 1 = get dup2 0 1.
Proof.
  assert (get_mut 0 0 (process_start, dup2) = (Ret 1, (process_start, dup2)))
    as Hmut by (by vm_compute).
  split; [done|].
  apply (assign_frame process_start dup2 0 0 1 9%float 0 1);
    [reflexivity|simpl; lia|simpl; lia|done|congruence].
Defined.

(** X17.  [SparseMatrix (nrow)]: [nrow = 0] fails its assertion.  For
    [0 < nrow < 2^32 - 1] the matrix is [OPEN] with [nrow + 1] zero offsets
    and nothing stored, and every element of a row below [nrow] reads as
    zero.  For [nrow = 2^32 - 1] the size [nrow + 1] of [row_ptr] wraps to
    zero: the constructor returns, and every [set] that passes the
    assertions reads [row_ptr] out of bounds. *)
Theorem SparseMatrix_new_rows {T : Type} `{Scalar T} (n : Z) :
  (n = 0 -> @SparseMatrix_new T n = Fail AssertFail)
  /\ (0 < n < UINT_MOD - 1 ->
      exists A : SparseMatrix T,
        SparseMatrix_new n = Ret A /\ nrow A = n /\ state A = OPEN
        /\ row_ptr A = replicate (Z.to_nat (n + 1)) 0
        /\ col_ind A = [] /\ val A = []
        /\ forall i j, 0 <= i < n -> get A i j = Ret tzero)
  /\ (n = UINT_MOD - 1 ->
      exists A : SparseMatrix T,
        SparseMatrix_new n = Ret A /\ nrow A = n /\ row_ptr A = []
        /\ forall p i j v, 0 <= i < n -> 0 <= j < n ->
             set i j v (p, A) = (Fail Undefined, (p, A))).
Proof.
  unfold SparseMatrix_new. split; [|split].
  - by intros ->.
  - intros Hn. rewrite bool_decide_eq_true_2 by lia.
    rewrite u32_small by lia.
    eexists. split; [reflexivity|]. cbn [nrow state row_ptr col_ind val].
    repeat split. intros i j Hi. unfold get. cbn [row_ptr].
    rewrite (u32_small (i + 1)) by lia.
    rewrite (load_Ret 0 _ i), (load_Ret 0 _ (i + 1))
      by (rewrite length_replicate; lia).
    change (mbind ?f (Ret ?a)) with (f a). cbv beta.
    change (mbind ?f (Ret ?a)) with (f a). cbv beta.
    unfold sel. rewrite !lookup_replicate_2 by lia. reflexivity.
  - intros Hn. assert (u32 (n + 1) = 0) as -> by (by subst n).
    rewrite bool_decide_eq_true_2 by (subst n; unfold UINT_MOD; lia).
    eexists. split; [reflexivity|]. cbn [nrow row_ptr].
    split; [done|]. split; [done|]. intros p i j v Hi Hj.
    unfold set, mbind, M_bind, gets, lift. cbn [fst snd state nrow row_ptr].
    rewrite !bool_decide_eq_true_2 by done. cbn [assert].
    rewrite load_out_of_bounds; [done|].
    right. simpl. apply u32_range.
Qed.

Lemma SparseMatrix_new_rows_witness :
  @SparseMatrix_new float 0 = Fail AssertFail
  /\ (exists A : SparseMatrix float,
        SparseMatrix_new 2 = Ret A /\ nrow A = 2 /\ state A = OPEN
        /\ row_ptr A = replicate (Z.to_nat (2 + 1)) 0
        /\ col_ind A = [] /\ val A = []
        /\ forall i j, 0 <= i < 2 -> get A i j = Ret tzero)
  /\ (exists A : SparseMatrix float,
        SparseMatrix_new (UINT_MOD - 1) = Ret A
        /\ nrow A = UINT_MOD - 1 /\ row_ptr A = []
        /\ forall p i j v, 0 <= i < UINT_MOD - 1 -> 0 <= j < UINT_MOD - 1 ->
             set i j v (p, A) = (Fail Undefined, (p, A))).
Proof.
  split; [|split].
  - apply (proj1 (SparseMatrix_new_rows (T:=float) 0)). reflexivity.
  - apply (proj1 (proj2 (SparseMatrix_new_rows (T:=float) 2))).
    unfold UINT_MOD. lia.
  - apply (proj2 (proj2 (SparseMatrix_new_rows (T:=float) (UINT_MOD - 1)))).
    reflexivity.
Defined.

Section AnyOrder.
Context {T : Type} `{Scalar T}.

Local Abbreviation entry := (@entry T).
Local Abbreviation St := (@St T).

Lemma set_all_any_order (n : Z) (es : list entry) (s0 : St) :
  0 < n < UINT_MOD - 1 -> 0 <= count s0.1 < UINT_MOD ->
  nrow s0.2 = n -> state s0.2 = OPEN ->
  Z.of_nat (length (row_ptr s0.2)) = n + 1 ->
  Forall (fun e : entry => 0 <= e.1.1 < n /\ 0 <= e.1.2 < n) es ->
  exists s : St,
    set_all es s0 = (Ret tt, s)
    /\ nrow s.2 = n /\ state s.2 = OPEN
    /\ col_ind s.2 = col_ind s0.2 ++ ((fun e : entry => e.1.2) <$> es)
    /\ val s.2 = val s0.2 ++ ((fun e : entry => e.2) <$> es)
    /\ count s.1 = u32 (count s0.1 + Z.of_nat (length es))
    /\ cout s.1 = cout s0.1
    /\ Z.of_nat (length (row_ptr s.2)) = n + 1
    /\ row_ptr s.2 !! 0%nat = row_ptr s0.2 !! 0%nat.
Proof.
  intros Hn Hc Hnrow Hst Hlen.
  induction es as [|e es IH] using rev_ind; intros Hes.
  - exists s0. split; [done|]. repeat split; try done.
    + by rewrite app_nil_r.
    + by rewrite app_nil_r.
    + simpl. rewrite Z.add_0_r. by rewrite u32_small.
  - apply Forall_app in Hes as [Hes He]. rewrite Forall_singleton in He.
    destruct (IH Hes)
      as (s & Hs & Hnr & Hst' & Hcols & Hvals & Hcnt & Hout & Hlen' & Hfirst).
    destruct e as [[i j] v]. simpl in He. destruct s as [p A]. simpl in *.
    eexists. split.
    { rewrite set_all_app, Hs. unfold set_all. simpl. unfold mbind, M_bind.
      rewrite (set_Ret p A i j v); [reflexivity|done| | | |].
      all: rewrite ?Hnr; try done; lia. }
    cbn [fst snd nrow state col_ind val count cout row_ptr].
    rewrite Hcols, Hvals, Hcnt, !fmap_app, !app_assoc, length_app.
    repeat split; try done.
    + rewrite u32_succ. f_equal. simpl. lia.
    + by rewrite length_insert.
    + rewrite list_lookup_insert_ne by lia. done.
Qed.

End AnyOrder.

(** X18.  [set] checks the ranges of its indices, not the order of the
    rows: after [construct (n)], calls of [set] with indices below [n]
    succeed in whatever order they come, print nothing, advance the counter
    by their number and append their columns and values in call order; only
    [row_ptr] depends on the order.  With the rows descending, as in
    [set (1, 1, 3)] then [set (0, 0, 2)], [close ()] leaves offsets that
    decrease, and the entry [(1, 1)] reads as zero. *)
Theorem set_any_order :
  (forall (T : Type) (S : Scalar T) (p : process) (n : Z)
          (es : list (@entry T)),
     0 <= count p < UINT_MOD -> 0 < n < UINT_MOD - 1 ->
     Forall (fun e : @entry T => 0 <= e.1.1 < n /\ 0 <= e.1.2 < n) es ->
     exists s : @St T,
       build p n es = (Ret tt, s)
       /\ nrow s.2 = n /\ state s.2 = OPEN
       /\ col_ind s.2 = (fun e : @entry T => e.1.2) <$> es
       /\ val s.2 = (fun e : @entry T => e.2) <$> es
       /\ count s.1 = u32 (count p + Z.of_nat (length es))
       /\ cout s.1 = cout p
       /\ Z.of_nat (length (row_ptr s.2)) = n + 1)
  /\ (exists s s' : @St float,
        build process_start 2 descending_entries = (Ret tt, s)
        /\ close s = (Ret tt, s')
        /\ row_ptr s'.2 = [0; 2; 1] /\ valid_csr s'.2 = false
        /\ get s'.2 1 1 = Ret 0%float).
Proof.
  split.
  - intros T S p n es Hc Hn Hes. unfold build, SparseMatrix_new.
    rewrite bool_decide_eq_true_2 by lia.
    change (mbind ?f (Ret ?a)) with (f a). cbv beta.
    destruct (set_all_any_order n es
                (p, {| nrow := n;
                       row_ptr := replicate (Z.to_nat (u32 (n + 1))) 0;
                       col_ind := []; val := []; state := OPEN |}) Hn Hc)
      as (s & Hs & Hnr & Hst & Hcols & Hvals & Hcnt & Hout & Hlen & _);
      try done.
    { simpl. rewrite length_replicate, u32_small by lia. lia. }
    exists s. split; [done|]. simpl in *. done.
  - eexists _, _. split; [by vm_compute|]. split; [by vm_compute|].
    split; [by vm_compute|]. split; by vm_compute.
Qed.

Lemma set_any_order_witness :
  exists s : @St float,
    build process_start 2 descending_entries = (Ret tt, s)
    /\ nrow s.2 = 2 /\ state s.2 = OPEN
    /\ col_ind s.2 = (fun e : @entry float => e.1.2) <$> descending_entries
    /\ val s.2 = (fun e : @entry float => e.2) <$> descending_entries
    /\ count s.1
       = u32 (count process_start + Z.of_nat (length descending_entries))
    /\ cout s.1 = cout process_start
    /\ Z.of_nat (length (row_ptr s.2)) = 2 + 1.
Proof.
  apply (proj1 set_any_order float _ process_start 2 descending_entries).
  - by vm_compute.
  - unfold UINT_MOD. lia.
  - repeat constructor; simpl; lia.
Defined.
